(** * Hex search engine: a shallow embedding of Hex_utils.py and Hex_ai.py

    The board is a Python list of rows (a list of lists of integers), the
    visited sets are Python sets, the transposition cache is a Python dict.
    They are modelled by [list (list Z)], [gset Z] and [gmap] respectively.
    Stateful functions (those that write to the board or to the cache) pass
    the board and the cache explicitly and hand them back to the caller. *)

From Stdlib Require Import ZArith Lia List Bool Sorted.
From stdpp Require Import base option list gmap.
Import ListNotations.

Local Open Scope Z_scope.

(** ** Python lists *)

Module Py.

(** [l[i]] for a Python list: a negative index counts from the end, an
    index outside [-len, len) raises IndexError ([None]). *)
Definition index_of (len : nat) (i : Z) : option nat :=
  if (0 <=? i) && (i <? Z.of_nat len) then Some (Z.to_nat i)
  else if (i <? 0) && (0 <=? Z.of_nat len + i) then Some (Z.to_nat (Z.of_nat len + i))
  else None.

Definition getitem {A} (l : list A) (i : Z) : option A :=
  match index_of (length l) i with
  | Some k => l !! k
  | None => None
  end.

(** [l[i] = v]; [None] is IndexError. *)
Definition setitem {A} (l : list A) (i : Z) (v : A) : option (list A) :=
  match index_of (length l) i with
  | Some k => Some (<[k := v]> l)
  | None => None
  end.

(** [range(start, stop, step)] for a positive step. *)
Definition range3 (start stop step : Z) : list Z :=
  (fun k => start + k * step) <$> seqZ 0 ((stop - start + step - 1) / step).

(** [range(n)] *)
Definition range (n : Z) : list Z := seqZ 0 n.

(** [range(start, stop)] *)
Definition range2 (start stop : Z) : list Z := seqZ start (stop - start).

End Py.

(** ** Hex_utils.py *)

Definition SIZE : Z := 4.

Abbreviation Board := (list (list Z)).

(** [board[r][c]], with IndexError as [None]. *)
Definition board_get (board : Board) (r c : Z) : option Z :=
  match Py.getitem board r with
  | Some row => Py.getitem row c
  | None => None
  end.

(** [board[r][c] = v], with IndexError as [None]. *)
Definition board_set (board : Board) (r c v : Z) : option Board :=
  match Py.getitem board r with
  | Some row =>
      match Py.setitem row c v with
      | Some row' => Py.setitem board r row'
      | None => None
      end
  | None => None
  end.

(** A board as [initialize_board] builds it and as the game keeps it: SIZE
    rows of SIZE cells.  On such a board every read and write made by the
    functions below is in range (lemmas [board_get_wf], [board_set_wf]), so
    they are modelled with the total [cell] and [put]. *)
Definition wf_board (board : Board) : Prop :=
  length board = Z.to_nat SIZE ∧ Forall (fun row => length row = Z.to_nat SIZE) board.

Definition cell (board : Board) (r c : Z) : Z :=
  default 0 (board_get board r c).

Definition put (board : Board) (r c v : Z) : Board :=
  default board (board_set board r c v).

(** [get_neighbors(cell)] *)
Definition directions : list (Z * Z) :=
  [(-1, 0); (1, 0); (0, -1); (0, 1); (-1, 1); (1, -1)].

(** One round of [for dr, dc in directions:]. *)
Definition add_direction (row col : Z) (neighbors : list Z) (d : Z * Z) : list Z :=
  let '(dr, dc) := d in
  let nr := row + dr in
  let nc := col + dc in
  if (0 <=? nr) && (nr <? SIZE) && (0 <=? nc) && (nc <? SIZE)
  then neighbors ++ [nr * SIZE + nc]
  else neighbors.

Definition get_neighbors (cell_id : Z) : list Z :=
  let row := cell_id / SIZE in
  let col := cell_id mod SIZE in
  fold_left (add_direction row col) directions [].

(** One round of [for neighbor in neighbors:] in [check_winner]. *)
Definition push_stone (board : Board) (value : Z) (stack : list Z) (neighbor : Z)
    : list Z :=
  let row := neighbor / SIZE in
  let col := neighbor mod SIZE in
  if cell board row col =? value then neighbor :: stack else stack.

(** The [while stack:] loop of [check_winner].  The Python list [stack] is
    used as a stack whose top is its last element; here the top is the head
    of the list, so [stack.append(x)] is [x :: stack].  [None] is "out of
    fuel"; [check_winner_fuel_enough] shows the loop ends within the fuel
    [check_winner] gives it. *)
Fixpoint check_winner_loop (fuel : nat) (board : Board) (value : Z)
    (goal : list Z) (stack : list Z) (visited : gset Z) : option bool :=
  match fuel with
  | O => None
  | S fuel' =>
      match stack with
      | [] => Some false
      | current :: stack =>
          if bool_decide (current ∈ goal) then Some true
          else if bool_decide (current ∈ visited)
          then check_winner_loop fuel' board value goal stack visited
          else
            let visited := visited ∪ {[current]} in
            let stack :=
              fold_left (push_stone board value) (get_neighbors current) stack in
            check_winner_loop fuel' board value goal stack visited
      end
  end.

Definition winner_start (board : Board) (player value : Z) : list Z :=
  if player =? 1
  then filter (fun i => cell board 0 i = value) (Py.range SIZE)
  else filter (fun i => cell board (i / SIZE) 0 = value)
              (Py.range3 0 (SIZE * SIZE) SIZE).

Definition winner_goal (board : Board) (player value : Z) : list Z :=
  if player =? 1
  then filter (fun i => cell board (-1) (i mod SIZE) = value)
              (Py.range2 (SIZE * (SIZE - 1)) (SIZE * SIZE))
  else filter (fun i => cell board (i / SIZE) (-1) = value)
              (Py.range3 (SIZE - 1) (SIZE * SIZE) SIZE).

Definition winner_fuel : nat := 128.

Definition check_winner (board : Board) (player : Z) : bool :=
  let value := if player =? 1 then 1 else -1 in
  let start := winner_start board player value in
  let goal := winner_goal board player value in
  (* stack.extend(start): the last element of start ends on top *)
  let stack := reverse start in
  default false (check_winner_loop winner_fuel board value goal stack ∅).

(** [is_valid_action] and [apply_action], with their exceptions. *)
Inductive exn := ValueError | IndexError.

Inductive outcome (A : Type) :=
| Returns (a : A) (board : Board)
| Raises (e : exn) (board : Board).
Arguments Returns {A} a board.
Arguments Raises {A} e board.

Definition is_valid_action (board : Board) (action : Z) : outcome bool :=
  let row := action / SIZE in
  let col := action mod SIZE in
  match board_get board row col with
  | Some v => Returns (v =? 0) board
  | None => Raises IndexError board
  end.

Definition apply_action (board : Board) (action player : Z) : outcome unit :=
  let row := action / SIZE in
  let col := action mod SIZE in
  match is_valid_action board action with
  | Raises e board => Raises e board
  | Returns false board => Raises ValueError board
  | Returns true board =>
      match board_set board row col player with
      | Some board' => Returns tt board'
      | None => Raises IndexError board
      end
  end.

(** ** Hex_ai.py *)

(** Scores are Python numbers: integers, and the floats [-math.inf] and
    [math.inf] of the initial window and of [best_score]. *)
Inductive score := NegInf | Fin (z : Z) | PosInf.

Module Score.

(** unary minus *)
Definition neg (s : score) : score :=
  match s with
  | NegInf => PosInf
  | Fin z => Fin (- z)
  | PosInf => NegInf
  end.

(** [a < b] *)
Definition ltb (a b : score) : bool :=
  match a, b with
  | NegInf, NegInf => false
  | NegInf, _ => true
  | Fin _, NegInf => false
  | Fin x, Fin y => x <? y
  | Fin _, PosInf => true
  | PosInf, _ => false
  end.

(** [a >= b] *)
Definition geb (a b : score) : bool := negb (ltb a b).

(** [max(a, b)]: Python keeps the first argument unless the second is
    strictly larger. *)
Definition max (a b : score) : score := if ltb a b then b else a.

End Score.

(** The transposition table: [cache[(board_hash, player, depth)] =
    (best_score, best_move)]. *)
Abbreviation Cache := (gmap (Z * Z * Z) (score * option Z)).

(** What a call of [negamax] leaves behind: the returned pair, then the
    board and the cache as the caller sees them afterwards. *)
Abbreviation Result := (score * option Z * Board * Cache)%type.

(** The BFS of [shortest_path_length].  The deque is a list whose head is
    its left end: [popleft] takes the head, [append] adds at the end. *)
Definition spl_visit (board : Board) (target_value dist : Z)
    (st : gset Z * list (Z * Z)) (nxt : Z) : gset Z * list (Z * Z) :=
  let '(visited, queue) := st in
  let r := nxt / SIZE in
  let c := nxt mod SIZE in
  if (cell board r c =? target_value) && negb (bool_decide (nxt ∈ visited))
  then (visited ∪ {[nxt]}, queue ++ [(nxt, dist + 1)])
  else (visited, queue).

Fixpoint spl_loop (fuel : nat) (board : Board) (target_value : Z)
    (is_goal : Z -> bool) (queue : list (Z * Z)) (visited : gset Z)
    : option (option Z) :=
  match fuel with
  | O => None
  | S fuel' =>
      match queue with
      | [] => Some None
      | (current, dist) :: queue =>
          if is_goal current then Some (Some dist)
          else
            let '(visited, queue) :=
              fold_left (spl_visit board target_value dist)
                        (get_neighbors current) (visited, queue) in
            spl_loop fuel' board target_value is_goal queue visited
      end
  end.

Definition spl_starts (board : Board) (player target_value : Z) : list Z :=
  if player =? 1
  then filter (fun c => cell board 0 c = target_value) (Py.range SIZE)
  else (fun r => r * SIZE)
         <$> filter (fun r => cell board r 0 = target_value) (Py.range SIZE).

Definition spl_is_goal (player : Z) : Z -> bool :=
  if player =? 1
  then fun cell_id => cell_id / SIZE =? SIZE - 1
  else fun cell_id => cell_id mod SIZE =? SIZE - 1.

(** [for s in starts: queue.append((s, 0)); visited.add(s)] *)
Definition spl_init (starts : list Z) : gset Z * list (Z * Z) :=
  fold_left (fun '(visited, queue) s => (visited ∪ {[s]}, queue ++ [(s, 0)]))
            starts (∅, []).

Definition spl_fuel : nat := 32.

(** [None] is Python's None; [spl_loop_fuel_enough] shows the loop ends within
    [spl_fuel] rounds. *)
Definition shortest_path_length (board : Board) (player : Z) : option Z :=
  let target_value := if player =? 1 then 1 else -1 in
  let starts := spl_starts board player target_value in
  let is_goal := spl_is_goal player in
  let '(visited, queue) := spl_init starts in
  match spl_loop spl_fuel board target_value is_goal queue visited with
  | Some r => r
  | None => None
  end.

Definition evaluate_board (board : Board) (player : Z) : Z :=
  let sp_self := shortest_path_length board player in
  let sp_opp := shortest_path_length board (- player) in
  match sp_self, sp_opp with
  | None, None => 0
  | None, Some _ => -9999
  | Some _, None => 9999
  | Some d_self, Some d_opp => d_opp - d_self
  end.

(** [list.sort(key=lambda x: x[1], reverse=True)]: a stable sort, highest
    score first; entries of equal score keep their order. *)
Definition insert_desc (x : Z * Z) : list (Z * Z) -> list (Z * Z) :=
  fix ins (l : list (Z * Z)) : list (Z * Z) :=
    match l with
    | [] => [x]
    | y :: l' => if x.2 <? y.2 then y :: ins l' else x :: y :: l'
    end.

Definition sort_desc (l : list (Z * Z)) : list (Z * Z) :=
  foldr insert_desc [] l.

(** [order_moves]: every move is played on the board, scored, and taken
    back.  The board is handed back with the ordered list. *)
Definition order_moves_step (player : Z) (st : list (Z * Z) * Board) (action : Z)
    : list (Z * Z) * Board :=
  let '(scored_actions, board) := st in
  let r := action / SIZE in
  let c := action mod SIZE in
  let board := put board r c player in
  let sc := evaluate_board board player in
  let board := put board r c 0 in
  (scored_actions ++ [(action, sc)], board).

Definition order_moves (board : Board) (valid_actions : list Z) (player : Z)
    : list Z * Board :=
  let '(scored_actions, board) :=
    fold_left (order_moves_step player) valid_actions ([], board) in
  (fst <$> sort_desc scored_actions, board).

(** The empty cells, in increasing cell order. *)
Definition valid_actions_of (board : Board) : list Z :=
  filter (fun cell_id => cell board (cell_id / SIZE) (cell_id mod SIZE) = 0)
         (Py.range (SIZE * SIZE)).

Section Search.

(** [ZOBRIST_RANDOMS], as [init_zobrist] fills it: one pair of 64-bit
    numbers per cell.  The numbers come from Python's seeded generator and
    are a parameter here.  A cell without an entry reads as [(0, 0)] below,
    where Python raises; the statements about calls that reach the hash
    assume a table with an entry for every cell ([zobrist_table_ok]). *)
Variable ZOBRIST_RANDOMS : list (Z * Z).

Definition compute_zobrist_hash (board : Board) : Z :=
  fold_left
    (fun h cell_id =>
       let r := cell_id / SIZE in
       let c := cell_id mod SIZE in
       let val := cell board r c in
       if val =? 1 then Z.lxor h (default (0, 0) (Py.getitem ZOBRIST_RANDOMS cell_id)).1
       else if val =? -1 then Z.lxor h (default (0, 0) (Py.getitem ZOBRIST_RANDOMS cell_id)).2
       else h)
    (Py.range (SIZE * SIZE)) 0.

(** The [for action in ordered_actions:] loop of [negamax]; [rec] is the
    recursive call at [depth - 1] for the other player. *)
Fixpoint search_loop (rec : Board -> score -> score -> Cache -> option Result)
    (actions : list Z) (alpha beta : score) (player : Z)
    (best_score : score) (best_move : option Z)
    (board : Board) (cache : Cache) : option Result :=
  match actions with
  | [] => Some (best_score, best_move, board, cache)
  | action :: actions =>
      let r := action / SIZE in
      let c := action mod SIZE in
      let board := put board r c player in
      match rec board (Score.neg beta) (Score.neg alpha) cache with
      | None => None
      | Some (sc, _, board, cache) =>
          let board := put board r c 0 in
          let sc := Score.neg sc in
          let '(best_score, best_move) :=
            if Score.ltb best_score sc then (sc, Some action)
            else (best_score, best_move) in
          let alpha := Score.max alpha sc in
          if Score.geb alpha beta
          then Some (best_score, best_move, board, cache)
          else search_loop rec actions alpha beta player
                           best_score best_move board cache
      end
  end.

(** [negamax]; [None] is "out of fuel".  Each recursive call lowers
    [depth] by one and stops at [depth == 0], so [S (Z.to_nat depth)]
    levels are enough for a non-negative depth ([negamax_total]). *)
Fixpoint negamax_fuel (fuel : nat) (board : Board) (depth : Z)
    (alpha beta : score) (player : Z) (cache : Cache) : option Result :=
  match fuel with
  | O => None
  | S fuel' =>
      if check_winner board (- player)
      then Some (Fin (-999999 + depth), None, board, cache)
      else
        let valid_actions := valid_actions_of board in
        if bool_decide (valid_actions = [])
        then Some (Fin 0, None, board, cache)
        else if depth =? 0
        then Some (Fin (evaluate_board board player), None, board, cache)
        else
          let board_hash := compute_zobrist_hash board in
          let cache_key := (board_hash, player, depth) in
          match cache !! cache_key with
          | Some (sc, mv) => Some (sc, mv, board, cache)
          | None =>
              let '(ordered_actions, board) :=
                order_moves board valid_actions player in
              match search_loop
                      (fun b a be ca =>
                         negamax_fuel fuel' b (depth - 1) a be (- player) ca)
                      ordered_actions alpha beta player NegInf None
                      board cache with
              | None => None
              | Some (best_score, best_move, board, cache) =>
                  Some (best_score, best_move, board,
                        <[cache_key := (best_score, best_move)]> cache)
              end
          end
  end.

Definition negamax (board : Board) (depth : Z) (alpha beta : score)
    (player : Z) (cache : Cache) : option Result :=
  negamax_fuel (S (Z.to_nat depth)) board depth alpha beta player cache.

(** [find_best_move]; the result is the move (Python's [None] is the inner
    [None]) and the board as the caller finds it afterwards. *)
Definition find_best_move (board : Board) (player max_depth : Z)
    (cache : option Cache) : option (option Z * Board) :=
  let cache := match cache with None => ∅ | Some cache => cache end in
  match negamax board max_depth NegInf PosInf player cache with
  | Some (_, action, board, _) => Some (action, board)
  | None => None
  end.

End Search.

(** ** Vocabulary of the statements *)

Definition at_nat (board : Board) (i j : nat) : option Z :=
  match board !! i with
  | Some row => row !! j
  | None => None
  end.


Definition in_board (cell_id : Z) : Prop := 0 <= cell_id < SIZE * SIZE.


Definition board16 (a0 a1 a2 a3 a4 a5 a6 a7 a8 a9 a10 a11 a12 a13 a14 a15 : Z)
    : Board :=
  [[a0; a1; a2; a3]; [a4; a5; a6; a7]; [a8; a9; a10; a11]; [a12; a13; a14; a15]].


(** ** More of Hex_utils.py *)

(** [initialize_board(size)]: [[0] * size for _ in range(size)]. *)
Definition initialize_board (size : Z) : Board :=
  (fun _ => replicate (Z.to_nat size) 0) <$> Py.range size.

(** [convert_to_coordinates(action)]: [divmod(action, SIZE)]. *)
Definition convert_to_coordinates (action : Z) : Z * Z :=
  (action / SIZE, action mod SIZE).

(** [convert_to_action(row, col)] *)
Definition convert_to_action (row col : Z) : Z := row * SIZE + col.

(** ** The game loop of Hex_ai.py, both players played by the search

    [play_hex_with_alphabeta] with [ai_players = (1, -1)] (its default): no
    turn reads from the terminal.  What is printed is left out; the board,
    the player to move and the move count are passed along.  [TypeError] is
    what [apply_action(board, None, ...)] raises when the search selected no
    move. *)
Inductive game_end :=
| AiWins (player : Z) (board : Board)
| AllCellsFilled (board : Board)
| TypeError (board : Board)
| ActionError (e : exn) (board : Board).

Fixpoint game_loop (table : list (Z * Z)) (max_depth : Z) (fuel : nat)
    (board : Board) (current_player move_count : Z) : option game_end :=
  match fuel with
  | O => None
  | S fuel' =>
      match find_best_move table board current_player max_depth None with
      | None => None
      | Some (None, board) => Some (TypeError board)
      | Some (Some best_move, board) =>
          match apply_action board best_move current_player with
          | Raises e board => Some (ActionError e board)
          | Returns _ board =>
              if check_winner board current_player
              then Some (AiWins current_player board)
              else
                let current_player := - current_player in
                let move_count := move_count + 1 in
                if move_count >=? SIZE * SIZE
                then Some (AllCellsFilled board)
                else game_loop table max_depth fuel' board current_player move_count
          end
      end
  end.

(** The loop runs at most SIZE * SIZE rounds ([game_loop_ends]); [None] is
    "out of fuel". *)
Definition play_hex_with_alphabeta (table : list (Z * Z)) (max_depth : Z)
    : option game_end :=
  game_loop table max_depth (Z.to_nat (SIZE * SIZE)) (initialize_board SIZE) 1 0.

(** Two boards with the same content, cell by cell. *)
Definition same_cells (b1 b2 : Board) : Prop :=
  ∀ a, in_board a ->
       cell b1 (a / SIZE) (a mod SIZE) = cell b2 (a / SIZE) (a mod SIZE).

(** Every cell is empty or holds a stone of player 1 or -1. *)
Definition stones_only (board : Board) : Prop :=
  ∀ a, in_board a ->
       let v := cell board (a / SIZE) (a mod SIZE) in v = 0 ∨ v = 1 ∨ v = -1.

(** Stones put on the board one after the other with [apply_action];
    [None] when one of them raises. *)
Fixpoint play (board : Board) (stones : list (Z * Z)) : option Board :=
  match stones with
  | [] => Some board
  | (cell_id, player) :: stones =>
      match apply_action board cell_id player with
      | Returns _ board => play board stones
      | Raises _ _ => None
      end
  end.

(** The hash as the specification words it: the exclusive-or, over the
    occupied cells, of the table entry of the cell and of the player on it. *)
Definition zobrist_entry (table : list (Z * Z)) (cell_id player : Z) : Z :=
  let e := default (0, 0) (Py.getitem table cell_id) in
  if player =? 1 then e.1 else e.2.

Definition zobrist_xor (table : list (Z * Z)) (board : Board) : Z :=
  foldr Z.lxor 0
    ((fun a => zobrist_entry table a (cell board (a / SIZE) (a mod SIZE)))
       <$> filter (fun a => cell board (a / SIZE) (a mod SIZE) ≠ 0)
                  (Py.range (SIZE * SIZE))).

(** What [init_zobrist] builds: SIZE * SIZE pairs of 64-bit numbers. *)
Definition zobrist_table_ok (table : list (Z * Z)) : Prop :=
  length table = Z.to_nat (SIZE * SIZE) ∧
  Forall (fun e => 0 <= e.1 < 2 ^ 64 ∧ 0 <= e.2 < 2 ^ 64) table.

Definition sample_table : list (Z * Z) :=
  (fun k => (2 * k + 1, 2 * k + 2)) <$> seqZ 0 16.

(** The hex adjacency on cell indices: the second cell is on the board and
    differs from the first by one of the six (row, column) offsets. *)
Definition hex_adjacent (a b : Z) : Prop :=
  in_board b ∧
  (b / SIZE - a / SIZE, b mod SIZE - a mod SIZE)
    ∈ [(-1, 0); (1, 0); (0, -1); (0, 1); (-1, 1); (1, -1)].

(** A cell of the board that holds [value]. *)
Definition owned (board : Board) (value a : Z) : Prop :=
  in_board a ∧ cell board (a / SIZE) (a mod SIZE) = value.

(** [chain board value a b]: a path of adjacent cells from [a] to [b], all
    of them holding [value]. *)
Inductive chain (board : Board) (value : Z) : Z -> Z -> Prop :=
| chain_one a : owned board value a -> chain board value a a
| chain_step a b c :
    chain board value a b -> hex_adjacent b c -> owned board value c ->
    chain board value a c.

(** Player 1 joins the top row to the bottom row, the other player the left
    column to the right column. *)
Definition on_start_edge (player a : Z) : Prop :=
  if player =? 1 then a / SIZE = 0 else a mod SIZE = 0.

Definition on_goal_edge (player a : Z) : Prop :=
  if player =? 1 then a / SIZE = SIZE - 1 else a mod SIZE = SIZE - 1.

Definition connected (board : Board) (player : Z) : Prop :=
  ∃ s g, on_start_edge player s ∧ on_goal_edge player g ∧
         chain board player s g.

(** All the cells of the board, as a set. *)
Definition all_cells : gset Z := list_to_set (Py.range (SIZE * SIZE)).

Definition row0_chain4 : Board :=
  [[-1; -1; -1; -1]; [0; 0; 0; 0]; [0; 0; 0; 0]; [0; 0; 0; 0]].

Definition row0_chain3 : Board :=
  [[-1; -1; -1; 0]; [0; 0; 0; 0]; [0; 0; 0; 0]; [0; 0; 0; 0]].

(** An empty cell of the board. *)
Definition is_empty_cell (board : Board) (a : Z) : Prop :=
  in_board a ∧ cell board (a / SIZE) (a mod SIZE) = 0.

(** Every score in the cache is a number, as [negamax] stores them. *)
Definition cache_fin (cache : Cache) : Prop :=
  ∀ k sc mv, cache !! k = Some (sc, mv) -> ∃ z, sc = Fin z.

(** What the loop of [negamax] has found so far: nothing yet, or one of
    the moves with a number for its score. *)
Definition best_so_far (moves : list Z) (best_score : score)
    (best_move : option Z) : Prop :=
  (best_score = NegInf ∧ best_move = None)
  ∨ (∃ z a, best_score = Fin z ∧ best_move = Some a ∧ a ∈ moves).

(** ** The search without pruning

    The same search with the beta cutoff taken out: the loop never takes
    [if alpha >= beta: break] and visits every ordered move.  This is the
    full-width search the specification compares [negamax] with; it is not
    in the source. *)
Fixpoint search_loop_full (rec : Board -> score -> score -> Cache -> option Result)
    (actions : list Z) (alpha beta : score) (player : Z)
    (best_score : score) (best_move : option Z)
    (board : Board) (cache : Cache) : option Result :=
  match actions with
  | [] => Some (best_score, best_move, board, cache)
  | action :: actions =>
      let r := action / SIZE in
      let c := action mod SIZE in
      let board := put board r c player in
      match rec board (Score.neg beta) (Score.neg alpha) cache with
      | None => None
      | Some (sc, _, board, cache) =>
          let board := put board r c 0 in
          let sc := Score.neg sc in
          let '(best_score, best_move) :=
            if Score.ltb best_score sc then (sc, Some action)
            else (best_score, best_move) in
          let alpha := Score.max alpha sc in
          search_loop_full rec actions alpha beta player
                           best_score best_move board cache
      end
  end.

Fixpoint negamax_full_fuel (table : list (Z * Z)) (fuel : nat) (board : Board)
    (depth : Z) (alpha beta : score) (player : Z) (cache : Cache)
    : option Result :=
  match fuel with
  | O => None
  | S fuel' =>
      if check_winner board (- player)
      then Some (Fin (-999999 + depth), None, board, cache)
      else
        let valid_actions := valid_actions_of board in
        if bool_decide (valid_actions = [])
        then Some (Fin 0, None, board, cache)
        else if depth =? 0
        then Some (Fin (evaluate_board board player), None, board, cache)
        else
          let board_hash := compute_zobrist_hash table board in
          let cache_key := (board_hash, player, depth) in
          match cache !! cache_key with
          | Some (sc, mv) => Some (sc, mv, board, cache)
          | None =>
              let '(ordered_actions, board) :=
                order_moves board valid_actions player in
              match search_loop_full
                      (fun b a be ca =>
                         negamax_full_fuel table fuel' b (depth - 1) a be
                                           (- player) ca)
                      ordered_actions alpha beta player NegInf None
                      board cache with
              | None => None
              | Some (best_score, best_move, board, cache) =>
                  Some (best_score, best_move, board,
                        <[cache_key := (best_score, best_move)]> cache)
              end
          end
  end.

Definition negamax_full (table : list (Z * Z)) (board : Board) (depth : Z)
    (alpha beta : score) (player : Z) (cache : Cache) : option Result :=
  negamax_full_fuel table (S (Z.to_nat depth)) board depth alpha beta player cache.

(** [a <= b] on scores. *)
Definition score_le (a b : score) : Prop := Score.ltb b a = false.

(** What a call at depth 0 returns as its score. *)
Definition leaf_score (board : Board) (player : Z) : Z :=
  if check_winner board (- player) then -999999 + 0
  else if bool_decide (valid_actions_of board = []) then 0
  else evaluate_board board player.

(** How the answer of the pruned search at a node below the root relates to
    the answer of the full search there, when the root has [alpha] in hand:
    both are numbers, and they are the same, or the pruned one was cut off,
    which makes both worth no more than [alpha] to the root. *)
Definition answers_agree (alpha : score) (p f : score * option Z) : Prop :=
  (∃ z, p.1 = Fin z) ∧ (∃ z, f.1 = Fin z) ∧
  (p = f ∨ (score_le (Score.neg alpha) p.1 ∧ score_le p.1 f.1)).

Definition caches_agree (alpha : score) (cp cf : Cache) : Prop :=
  ∀ k, match cp !! k, cf !! k with
       | Some p, Some f => answers_agree alpha p f
       | None, None => True
       | _, _ => False
       end.

(** The score [order_moves] gives a move: the evaluation of the board with
    the move played. *)
Definition move_score (board : Board) (player action : Z) : Z :=
  evaluate_board (put board (action / SIZE) (action mod SIZE) player) player.

(** One round of the loop of [compute_zobrist_hash]. *)
Definition zobrist_step (table : list (Z * Z)) (board : Board) (h cell_id : Z) : Z :=
  let val := cell board (cell_id / SIZE) (cell_id mod SIZE) in
  if val =? 1 then Z.lxor h (default (0, 0) (Py.getitem table cell_id)).1
  else if val =? -1 then Z.lxor h (default (0, 0) (Py.getitem table cell_id)).2
  else h.

(** A game that ended as the loop means it to: a player has joined the
    edges, or all cells are filled and nobody has; no exception. *)
Definition regular_end (e : game_end) : Prop :=
  match e with
  | AiWins p b =>
      (p = 1 ∨ p = -1) ∧ wf_board b ∧ check_winner b p = true
      ∧ check_winner b (- p) = false
  | AllCellsFilled b =>
      wf_board b ∧ valid_actions_of b = []
      ∧ check_winner b 1 = false ∧ check_winner b (-1) = false
  | TypeError _ => False
  | ActionError _ _ => False
  end.

(** What holds whenever the loop comes round: nobody has won, and
    [move_count] stones are on the board. *)
Definition game_inv (board : Board) (current_player move_count : Z) : Prop :=
  wf_board board ∧ (current_player = 1 ∨ current_player = -1)
  ∧ check_winner board 1 = false ∧ check_winner board (-1) = false
  ∧ 0 <= move_count < SIZE * SIZE
  ∧ Z.of_nat (length (valid_actions_of board)) = SIZE * SIZE - move_count.
(** * Properties *)

(** ** Boards *)

Lemma wf_board_inv (board : Board) :
  wf_board board ->
  ∃ a0 a1 a2 a3 a4 a5 a6 a7 a8 a9 a10 a11 a12 a13 a14 a15,
    board = board16 a0 a1 a2 a3 a4 a5 a6 a7 a8 a9 a10 a11 a12 a13 a14 a15.
Proof.
  unfold wf_board. change (Z.to_nat SIZE) with 4%nat.
  intros [Hlen Hrows].
  destruct board as [|r0 [|r1 [|r2 [|r3 [|r4 rest]]]]]; try discriminate Hlen.
  clear Hlen.
  repeat match goal with
         | H : Forall _ (_ :: _) |- _ => apply Forall_cons in H as [? H]
         end.
  repeat match goal with
         | H : length ?r = 4%nat |- _ =>
             is_var r;
             destruct r as [|? [|? [|? [|? [|? ?]]]]]; try discriminate H; clear H
         end.
  unfold board16. do 16 eexists. reflexivity.
Qed.

Lemma wf_board16 a0 a1 a2 a3 a4 a5 a6 a7 a8 a9 a10 a11 a12 a13 a14 a15 :
  wf_board (board16 a0 a1 a2 a3 a4 a5 a6 a7 a8 a9 a10 a11 a12 a13 a14 a15).
Proof. split; [reflexivity | repeat constructor]. Qed.

Lemma in_board_cases (a : Z) :
  in_board a ->
  a = 0 ∨ a = 1 ∨ a = 2 ∨ a = 3 ∨ a = 4 ∨ a = 5 ∨ a = 6 ∨ a = 7 ∨
  a = 8 ∨ a = 9 ∨ a = 10 ∨ a = 11 ∨ a = 12 ∨ a = 13 ∨ a = 14 ∨ a = 15.
Proof. unfold in_board, SIZE. lia. Qed.

Ltac board_cases H :=
  apply in_board_cases in H;
  repeat (destruct H as [H | H]; [subst | ]); [.. | subst].

Ltac sample_table_is_ok :=
  split;
  [ reflexivity
  | apply Forall_forall;
    let e := fresh "e" in
    let H := fresh "H" in
    intros e H;
    apply list_elem_of_fmap in H as (?k & -> & H);
    apply elem_of_seqZ in H; simpl; lia ].

Ltac explicit_board H :=
  apply wf_board_inv in H;
  destruct H as (?a & ?a & ?a & ?a & ?a & ?a & ?a & ?a &
                 ?a & ?a & ?a & ?a & ?a & ?a & ?a & ?a & ->).

(** On a well-formed board the reads and writes of the search are in range:
    Python raises no IndexError where the model uses [cell] and [put]. *)
Lemma board_get_wf (board : Board) (a : Z) :
  wf_board board -> in_board a ->
  board_get board (a / SIZE) (a mod SIZE) = Some (cell board (a / SIZE) (a mod SIZE)).
Proof.
  intros Hwf Ha. explicit_board Hwf. board_cases Ha; reflexivity.
Qed.

Lemma board_set_wf (board : Board) (a v : Z) :
  wf_board board -> in_board a ->
  board_set board (a / SIZE) (a mod SIZE) v = Some (put board (a / SIZE) (a mod SIZE) v).
Proof.
  intros Hwf Ha. explicit_board Hwf. board_cases Ha; reflexivity.
Qed.

Lemma put_wf (board : Board) (a v : Z) :
  wf_board board -> in_board a -> wf_board (put board (a / SIZE) (a mod SIZE) v).
Proof.
  intros Hwf Ha. explicit_board Hwf. board_cases Ha; apply wf_board16.
Qed.

(** Playing a stone on an empty cell and taking it back gives the board back. *)
Lemma put_undo (board : Board) (a p : Z) :
  wf_board board -> in_board a ->
  cell board (a / SIZE) (a mod SIZE) = 0 ->
  put (put board (a / SIZE) (a mod SIZE) p) (a / SIZE) (a mod SIZE) 0 = board.
Proof.
  intros Hwf Ha. explicit_board Hwf.
  board_cases Ha; cbv [cell board_get board16]; simpl; intros ->; reflexivity.
Qed.

Lemma cell_put_same (board : Board) (a v : Z) :
  wf_board board -> in_board a ->
  cell (put board (a / SIZE) (a mod SIZE) v) (a / SIZE) (a mod SIZE) = v.
Proof.
  intros Hwf Ha. explicit_board Hwf. board_cases Ha; reflexivity.
Qed.

Lemma elem_of_valid_actions (board : Board) (a : Z) :
  a ∈ valid_actions_of board ↔
  in_board a ∧ cell board (a / SIZE) (a mod SIZE) = 0.
Proof.
  unfold valid_actions_of, Py.range, in_board.
  rewrite list_elem_of_filter, elem_of_seqZ. tauto.
Qed.

Lemma cell_put_other (board : Board) (a a' v : Z) :
  wf_board board -> in_board a -> in_board a' -> a ≠ a' ->
  cell (put board (a / SIZE) (a mod SIZE) v) (a' / SIZE) (a' mod SIZE)
  = cell board (a' / SIZE) (a' mod SIZE).
Proof.
  intros Hwf Ha Ha' Hne. explicit_board Hwf.
  board_cases Ha; board_cases Ha'; first [congruence | reflexivity].
Qed.

(** ** The evaluator *)

(** C4: the four rows of the scoring table of [evaluate_board]. *)
Theorem evaluate_board_table (board : Board) (player : Z) :
  (shortest_path_length board player = None ->
   shortest_path_length board (- player) = None ->
   evaluate_board board player = 0)
  ∧ (shortest_path_length board player = None ->
     (∃ d_opp, shortest_path_length board (- player) = Some d_opp) ->
     evaluate_board board player = -9999)
  ∧ (shortest_path_length board (- player) = None ->
     (∃ d_self, shortest_path_length board player = Some d_self) ->
     evaluate_board board player = 9999)
  ∧ (∀ d_self d_opp,
       shortest_path_length board player = Some d_self ->
       shortest_path_length board (- player) = Some d_opp ->
       evaluate_board board player = d_opp - d_self).
Proof.
  unfold evaluate_board.
  repeat split.
  - intros -> ->. reflexivity.
  - intros -> [d ->]. reflexivity.
  - intros -> [d ->]. reflexivity.
  - intros d_self d_opp -> ->. reflexivity.
Qed.

(** C9: the heuristic is antisymmetric in the player; this holds for every
    integer [player], in particular for 1 and -1. *)
Theorem evaluate_board_antisym (board : Board) (player : Z) :
  evaluate_board board (- player) = - evaluate_board board player.
Proof.
  unfold evaluate_board. rewrite Z.opp_involutive.
  destruct (shortest_path_length board player),
           (shortest_path_length board (- player)); lia.
Qed.

(** ** Moves on the board *)

Lemma getitem_Some {A} (l : list A) (i : Z) (x : A) :
  Py.getitem l i = Some x ->
  ∃ k, Py.index_of (length l) i = Some k ∧ l !! k = Some x.
Proof.
  unfold Py.getitem. destruct (Py.index_of (length l) i) as [k|]; [eauto | discriminate].
Qed.

Lemma board_set_spec (board board' : Board) (r c v : Z) :
  board_set board r c v = Some board' ->
  ∃ i j row,
    Py.index_of (length board) r = Some i ∧ board !! i = Some row ∧
    Py.index_of (length row) c = Some j ∧ (j < length row)%nat ∧
    board' = <[i := <[j := v]> row]> board.
Proof.
  unfold board_set. intros H.
  destruct (Py.getitem board r) as [row|] eqn:Hrow; [|discriminate].
  apply getitem_Some in Hrow as (i & Hi & Hrow).
  unfold Py.setitem in H.
  destruct (Py.index_of (length row) c) as [j|] eqn:Hj; [|discriminate].
  rewrite Hi in H. injection H as <-.
  exists i, j, row. repeat split; try assumption.
  unfold Py.index_of in Hj.
  repeat case_match; try discriminate; injection Hj as <-; lia.
Qed.

Lemma board_set_is_Some (board : Board) (r c v x : Z) :
  board_get board r c = Some v -> ∃ b', board_set board r c x = Some b'.
Proof.
  unfold board_get, board_set. intros Hget.
  destruct (Py.getitem board r) as [row|] eqn:Hrow; [|discriminate].
  apply getitem_Some in Hrow as (i & Hi & Hrow).
  apply getitem_Some in Hget as (j & Hj & Hget).
  unfold Py.setitem. rewrite Hj, Hi. eauto.
Qed.

(** C8: [apply_action] raises ValueError exactly on an occupied cell; an
    exception leaves the board as it was; an empty cell is accepted; a normal
    return has written [player] into the cell the action names, which was
    empty, and into no other. *)
Theorem apply_action_spec (board : Board) (action player : Z) :
  ((∃ b, apply_action board action player = Raises ValueError b)
   ↔ (∃ v, board_get board (action / SIZE) (action mod SIZE) = Some v ∧ v ≠ 0))
  ∧ (∀ e b, apply_action board action player = Raises e b -> b = board)
  ∧ (board_get board (action / SIZE) (action mod SIZE) = Some 0 ->
     ∃ b, apply_action board action player = Returns tt b)
  ∧ (∀ u b, apply_action board action player = Returns u b ->
       board_get board (action / SIZE) (action mod SIZE) = Some 0 ∧
       board_get b (action / SIZE) (action mod SIZE) = Some player ∧
       ∃ i j row,
         Py.index_of (length board) (action / SIZE) = Some i ∧
         board !! i = Some row ∧
         Py.index_of (length row) (action mod SIZE) = Some j ∧
         b = <[i := <[j := player]> row]> board ∧
         at_nat board i j = Some 0 ∧ at_nat b i j = Some player ∧
         length b = length board ∧
         ∀ i' j', (i', j') ≠ (i, j) -> at_nat b i' j' = at_nat board i' j').
Proof.
  unfold apply_action, is_valid_action.
  destruct (board_get board (action / SIZE) (action mod SIZE)) as [v|] eqn:Hget.
  - destruct (Z.eqb_spec v 0) as [-> | Hv].
    + destruct (board_set_is_Some board _ _ 0 player Hget) as [b' Hset].
      rewrite Hset.
      split; [|split; [|split]].
      * split; [intros [b Hb]; discriminate | intros (v & [= <-] & Hv); congruence].
      * intros e b Hb. discriminate.
      * intros _. eauto.
      * intros u b Hb. assert (b = b') by congruence. subst b. clear Hb.
        split; [reflexivity|].
        apply board_set_spec in Hset as (i & j & row & Hi & Hrow & Hj & Hlt & ->).
        assert (Hilt : (i < length board)%nat) by (eapply lookup_lt_Some; eauto).
        unfold board_get in Hget.
        destruct (Py.getitem board (action / SIZE)) as [row0|] eqn:Hr0; [|discriminate].
        apply getitem_Some in Hr0 as (i0 & Hi0 & Hr0).
        apply getitem_Some in Hget as (j0 & Hj0 & Hget).
        assert (i0 = i) by congruence. subst i0.
        assert (row0 = row) by congruence. subst row0.
        assert (j0 = j) by congruence. subst j0.
        split.
        { unfold board_get, Py.getitem.
          rewrite length_insert, Hi.
          rewrite list_lookup_insert_eq by assumption.
          rewrite length_insert, Hj.
          apply list_lookup_insert_eq. assumption. }
        exists i, j, row.
        split; [exact Hi|]. split; [exact Hrow|]. split; [exact Hj|].
        split; [reflexivity|].
        unfold at_nat. rewrite Hrow, Hget.
        rewrite list_lookup_insert_eq by assumption.
        rewrite list_lookup_insert_eq by assumption.
        rewrite length_insert.
        repeat split.
        intros i' j' Hne.
        destruct (decide (i' = i)) as [-> | Hi'].
        -- rewrite list_lookup_insert_eq by assumption. rewrite Hrow.
           apply list_lookup_insert_ne. congruence.
        -- rewrite list_lookup_insert_ne by congruence. reflexivity.
    + split; [|split; [|split]].
      * split; eauto.
      * intros e b [= _ <-]. reflexivity.
      * intros [= ?]. contradiction.
      * intros u b Hb. discriminate.
  - split; [|split; [|split]].
    + split; [intros [b Hb]; discriminate | intros (v & [=] & _)].
    + intros e b [= _ <-]. reflexivity.
    + intros H. discriminate.
    + intros u b Hb. discriminate.
Qed.

(** ** The position hash *)

Section Zobrist.

Variable table : list (Z * Z).

Let step (board : Board) (h cell_id : Z) : Z :=
  let val := cell board (cell_id / SIZE) (cell_id mod SIZE) in
  if val =? 1 then Z.lxor h (default (0, 0) (Py.getitem table cell_id)).1
  else if val =? -1 then Z.lxor h (default (0, 0) (Py.getitem table cell_id)).2
  else h.

Lemma hash_unfold (board : Board) :
  compute_zobrist_hash table board
  = fold_left (step board) (Py.range (SIZE * SIZE)) 0.
Proof. reflexivity. Qed.

Lemma range_in_board : Forall in_board (Py.range (SIZE * SIZE)).
Proof. apply Forall_forall. intros a Ha%elem_of_seqZ. exact Ha. Qed.

Lemma hash_same_cells (b1 b2 : Board) :
  same_cells b1 b2 ->
  compute_zobrist_hash table b1 = compute_zobrist_hash table b2.
Proof.
  intros Hsame. rewrite !hash_unfold.
  generalize 0. 
  induction range_in_board as [|a l Ha _ IH]; intros h; [reflexivity|].
  simpl. unfold step at 2 4. rewrite (Hsame a Ha). apply IH.
Qed.

Lemma hash_is_xor_aux (board : Board) (l : list Z) (h : Z) :
  Forall (fun a => let v := cell board (a / SIZE) (a mod SIZE) in
                   v = 0 ∨ v = 1 ∨ v = -1) l ->
  fold_left (step board) l h
  = Z.lxor h
      (foldr Z.lxor 0
         ((fun a => zobrist_entry table a (cell board (a / SIZE) (a mod SIZE)))
            <$> filter (fun a => cell board (a / SIZE) (a mod SIZE) ≠ 0) l)).
Proof.
  intros Hl. revert h.
  induction Hl as [|a l Ha _ IH]; intros h; simpl.
  - now rewrite Z.lxor_0_r.
  - rewrite IH, filter_cons. unfold step. cbv zeta in Ha.
    destruct Ha as [Ha | [Ha | Ha]]; rewrite !Ha; simpl;
      try reflexivity;
      unfold zobrist_entry; rewrite Ha; simpl;
      now rewrite Z.lxor_assoc.
Qed.

Lemma hash_is_xor (board : Board) :
  stones_only board ->
  compute_zobrist_hash table board = zobrist_xor table board.
Proof.
  intros Hst. rewrite hash_unfold. unfold zobrist_xor.
  rewrite <- (Z.lxor_0_l (foldr _ _ _)).
  apply hash_is_xor_aux.
  apply Forall_forall. intros a Ha%elem_of_seqZ. apply Hst, Ha.
Qed.

Lemma lxor_64 (a b : Z) :
  0 <= a < 2 ^ 64 -> 0 <= b < 2 ^ 64 -> 0 <= Z.lxor a b < 2 ^ 64.
Proof.
  intros Ha Hb.
  assert (Hnn : 0 <= Z.lxor a b) by (apply Z.lxor_nonneg; lia).
  split; [exact Hnn|].
  destruct (Z.eq_dec (Z.lxor a b) 0) as [-> | Hz]; [lia|].
  apply Z.log2_lt_pow2; [lia|].
  pose proof (Z.log2_lxor a b ltac:(lia) ltac:(lia)) as Hlog.
  assert (Z.log2 a < 64).
  { destruct (Z.eq_dec a 0) as [-> | ?]; [reflexivity|].
    apply Z.log2_lt_pow2; lia. }
  assert (Z.log2 b < 64).
  { destruct (Z.eq_dec b 0) as [-> | ?]; [reflexivity|].
    apply Z.log2_lt_pow2; lia. }
  lia.
Qed.

Lemma table_entry_64 (cell_id : Z) :
  zobrist_table_ok table ->
  let e := default (0, 0) (Py.getitem table cell_id) in
  0 <= e.1 < 2 ^ 64 ∧ 0 <= e.2 < 2 ^ 64.
Proof.
  intros [_ Hall]. unfold Py.getitem.
  destruct (Py.index_of (length table) cell_id) as [k|]; simpl; [|lia].
  destruct (table !! k) as [e|] eqn:He; simpl; [|lia].
  eapply Forall_lookup_1 in Hall; eauto.
Qed.

Lemma fold_64 (board : Board) (l : list Z) (h : Z) :
  zobrist_table_ok table -> 0 <= h < 2 ^ 64 ->
  0 <= fold_left (step board) l h < 2 ^ 64.
Proof.
  intros Hok. revert h.
  induction l as [|a l IH]; intros h Hh; [exact Hh|].
  simpl. apply IH.
  pose proof (table_entry_64 a Hok) as [H1 H2]. unfold step.
  repeat case_match; try apply lxor_64; assumption.
Qed.

Lemma hash_64 (board : Board) :
  zobrist_table_ok table ->
  0 <= compute_zobrist_hash table board < 2 ^ 64.
Proof. intros Hok. rewrite hash_unfold. apply fold_64; [exact Hok | lia]. Qed.

End Zobrist.

(** Stones on a well-formed board. *)
Lemma apply_action_wf (board : Board) (a p : Z) :
  wf_board board -> in_board a ->
  apply_action board a p
  = if cell board (a / SIZE) (a mod SIZE) =? 0
    then Returns tt (put board (a / SIZE) (a mod SIZE) p)
    else Raises ValueError board.
Proof.
  intros Hwf Ha. unfold apply_action, is_valid_action.
  rewrite board_get_wf by assumption.
  destruct (cell board (a / SIZE) (a mod SIZE) =? 0); [|reflexivity].
  now rewrite board_set_wf.
Qed.

Lemma play_wf (stones : list (Z * Z)) (b0 b : Board) :
  wf_board b0 -> Forall (fun st => in_board st.1) stones ->
  play b0 stones = Some b -> wf_board b.
Proof.
  revert b0. induction stones as [|[c p] stones IH]; intros b0 Hwf Hin Hplay.
  - injection Hplay as <-. exact Hwf.
  - apply Forall_cons in Hin as [Hc Hin]. simpl in *.
    rewrite apply_action_wf in Hplay by assumption.
    destruct (cell b0 (c / SIZE) (c mod SIZE) =? 0); [|discriminate].
    eapply IH; [| exact Hin | exact Hplay]. now apply put_wf.
Qed.

(** A stone, once on the board, stays. *)
Lemma play_keeps (stones : list (Z * Z)) (b0 b : Board) (a : Z) :
  wf_board b0 -> Forall (fun st => in_board st.1) stones -> in_board a ->
  play b0 stones = Some b ->
  cell b0 (a / SIZE) (a mod SIZE) ≠ 0 ->
  cell b (a / SIZE) (a mod SIZE) = cell b0 (a / SIZE) (a mod SIZE).
Proof.
  revert b0. induction stones as [|[c p] stones IH]; intros b0 Hwf Hin Ha Hplay Hne.
  - now injection Hplay as <-.
  - apply Forall_cons in Hin as [Hc Hin]. simpl in *.
    rewrite apply_action_wf in Hplay by assumption.
    destruct (Z.eqb_spec (cell b0 (c / SIZE) (c mod SIZE)) 0) as [Hz|]; [|discriminate].
    assert (c ≠ a) by congruence.
    rewrite (IH _ (put_wf _ _ _ Hwf Hc) Hin Ha Hplay);
      rewrite cell_put_other by assumption; congruence.
Qed.

Lemma play_cells (stones : list (Z * Z)) (b0 b : Board) (a : Z) :
  wf_board b0 -> Forall (fun st => in_board st.1) stones -> in_board a ->
  play b0 stones = Some b ->
  (∀ p, (a, p) ∈ stones -> p ≠ 0 -> cell b (a / SIZE) (a mod SIZE) = p)
  ∧ ((∀ p, (a, p) ∈ stones -> p = 0) ->
     cell b (a / SIZE) (a mod SIZE) = cell b0 (a / SIZE) (a mod SIZE)).
Proof.
  revert b0. induction stones as [|[c p] stones IH]; intros b0 Hwf Hin Ha Hplay.
  - injection Hplay as <-. split; [|reflexivity]. intros p Hp. inversion Hp.
  - apply Forall_cons in Hin as [Hc Hin]. simpl in *.
    rewrite apply_action_wf in Hplay by assumption.
    destruct (Z.eqb_spec (cell b0 (c / SIZE) (c mod SIZE)) 0) as [Hz|]; [|discriminate].
    pose proof (put_wf _ _ p Hwf Hc) as Hwf'.
    destruct (IH _ Hwf' Hin Ha Hplay) as [IH1 IH2].
    split.
    + intros q Hq Hq0. apply elem_of_cons in Hq as [[= -> ->] | Hq].
      * rewrite (play_keeps _ _ _ _ Hwf' Hin Ha Hplay);
          rewrite cell_put_same by assumption; congruence.
      * now apply IH1.
    + intros Hall. rewrite IH2.
      * destruct (Z.eq_dec c a) as [-> | Hne].
        -- rewrite cell_put_same by assumption.
           rewrite Hz. apply Hall. left.
        -- now rewrite cell_put_other.
      * intros q Hq. apply Hall. now right.
Qed.

Lemma play_order (b0 b1 b2 : Board) (s1 s2 : list (Z * Z)) :
  wf_board b0 -> Forall (fun st => in_board st.1) s1 -> s1 ≡ₚ s2 ->
  play b0 s1 = Some b1 -> play b0 s2 = Some b2 -> same_cells b1 b2.
Proof.
  intros Hwf Hin1 Hperm H1 H2 a Ha.
  assert (Hin2 : Forall (fun st => in_board st.1) s2) by now rewrite <- Hperm.
  destruct (play_cells _ _ _ a Hwf Hin1 Ha H1) as [A1 B1].
  destruct (play_cells _ _ _ a Hwf Hin2 Ha H2) as [A2 B2].
  destruct (decide (Exists (fun st => st.1 = a ∧ st.2 ≠ 0) s1)) as [Hex | Hnex].
  - apply Exists_exists in Hex as ([c p] & Hcp & Hc & Hp). simpl in *. subst c.
    rewrite (A1 p Hcp Hp). symmetry. apply A2; [|exact Hp]. now rewrite <- Hperm.
  - assert (Hz : ∀ p, (a, p) ∈ s1 -> p = 0).
    { intros p Hp. destruct (Z.eq_dec p 0) as [|Hp0]; [assumption|].
      exfalso. apply Hnex, Exists_exists. exists (a, p). auto. }
    rewrite B1 by exact Hz. symmetry. apply B2.
    intros p Hp. apply Hz. now rewrite Hperm.
Qed.

(** C6: the hash depends on the content of the board only, so boards
    reached by the same stones in two orders hash alike; it is the
    exclusive-or of the table entries of the stones on the board, and it is a
    64-bit number. *)
Theorem zobrist_hash_content (table : list (Z * Z)) :
  zobrist_table_ok table ->
  (∀ b1 b2, same_cells b1 b2 ->
            compute_zobrist_hash table b1 = compute_zobrist_hash table b2)
  ∧ (∀ b0 s1 s2 b1 b2,
       wf_board b0 -> Forall (fun st => in_board st.1) s1 -> s1 ≡ₚ s2 ->
       play b0 s1 = Some b1 -> play b0 s2 = Some b2 ->
       compute_zobrist_hash table b1 = compute_zobrist_hash table b2)
  ∧ (∀ b, stones_only b -> compute_zobrist_hash table b = zobrist_xor table b)
  ∧ (∀ b, 0 <= compute_zobrist_hash table b < 2 ^ 64).
Proof.
  intros Hok. repeat split.
  - apply hash_same_cells.
  - intros b0 s1 s2 b1 b2 Hwf Hin Hperm H1 H2.
    apply hash_same_cells. eapply play_order; eauto.
  - apply hash_is_xor.
  - apply hash_64, Hok.
  - apply hash_64, Hok.
Qed.

(** ** Neighbours *)

Lemma get_neighbors_fold (row col n : Z) (dirs : list (Z * Z)) (acc : list Z) :
  n ∈ fold_left (add_direction row col) dirs acc
  ↔ n ∈ acc ∨ ∃ dr dc, (dr, dc) ∈ dirs ∧ 0 <= row + dr < SIZE ∧
                        0 <= col + dc < SIZE ∧ n = (row + dr) * SIZE + (col + dc).
Proof.
  revert acc. induction dirs as [|[dr dc] dirs IH]; intros acc; simpl.
  - split; [auto | intros [H | (dr & dc & H & _)]; [exact H | inversion H]].
  - rewrite IH. clear IH.
    destruct ((0 <=? row + dr) && (row + dr <? SIZE) && (0 <=? col + dc)
              && (col + dc <? SIZE)) eqn:Hc.
    + rewrite elem_of_app, list_elem_of_singleton. split.
      * intros [[H | ->] | (dr' & dc' & H & Hrest)].
        -- auto.
        -- right. exists dr, dc. split; [left|]. lia.
        -- right. exists dr', dc'. split; [now right | exact Hrest].
      * intros [H | (dr' & dc' & H & Hrest)]; [auto|].
        apply elem_of_cons in H as [[= -> ->] | H].
        -- left. right. lia.
        -- right. exists dr', dc'. auto.
    + split.
      * intros [H | (dr' & dc' & H & Hrest)]; [auto|].
        right. exists dr', dc'. split; [now right | exact Hrest].
      * intros [H | (dr' & dc' & H & Hrest)]; [auto|].
        apply elem_of_cons in H as [[= -> ->] | H]; [lia|].
        right. exists dr', dc'. auto.
Qed.

Lemma get_neighbors_length_fold (row col : Z) (dirs : list (Z * Z)) (acc : list Z) :
  (length (fold_left (add_direction row col) dirs acc)
   <= length acc + length dirs)%nat.
Proof.
  revert acc. induction dirs as [|[dr dc] dirs IH]; intros acc; simpl; [lia|].
  etransitivity; [apply IH|].
  case_match; [rewrite length_app; simpl|]; lia.
Qed.

Lemma get_neighbors_length (c : Z) : (length (get_neighbors c) <= 6)%nat.
Proof. unfold get_neighbors. apply (get_neighbors_length_fold _ _ directions []). Qed.

(** [get_neighbors] lists exactly the adjacent cells. *)
Lemma elem_of_get_neighbors (c n : Z) :
  n ∈ get_neighbors c ↔ hex_adjacent c n.
Proof.
  unfold get_neighbors, hex_adjacent, in_board. rewrite get_neighbors_fold.
  unfold directions, SIZE. split.
  - intros [H | (dr & dc & Hd & Hr & Hc & ->)]; [inversion H|].
    replace (((c `div` 4 + dr) * 4 + (c `mod` 4 + dc)) `div` 4) with (c `div` 4 + dr)
      by (Z.div_mod_to_equations; lia).
    replace (((c `div` 4 + dr) * 4 + (c `mod` 4 + dc)) `mod` 4) with (c `mod` 4 + dc)
      by (Z.div_mod_to_equations; lia).
    split; [lia|].
    replace (c `div` 4 + dr - c `div` 4) with dr by lia.
    replace (c `mod` 4 + dc - c `mod` 4) with dc by lia.
    exact Hd.
  - intros [Hn Hd]. right.
    exists (n `div` 4 - c `div` 4), (n `mod` 4 - c `mod` 4).
    split; [exact Hd|].
    Z.div_mod_to_equations. lia.
Qed.

Lemma get_neighbors_in_board (c n : Z) : n ∈ get_neighbors c -> in_board n.
Proof. intros H%elem_of_get_neighbors. apply H. Qed.

Lemma all_cells_size : size all_cells = 16%nat.
Proof. reflexivity. Qed.

Lemma elem_of_all_cells (a : Z) : a ∈ all_cells ↔ in_board a.
Proof. unfold all_cells, Py.range. rewrite elem_of_list_to_set, elem_of_seqZ. reflexivity. Qed.

Lemma unvisited_decreases (visited : gset Z) (c : Z) :
  in_board c -> c ∉ visited ->
  (size (all_cells ∖ (visited ∪ {[c]})) < size (all_cells ∖ visited))%nat.
Proof.
  intros Hc Hnv. apply subset_size.
  apply elem_of_all_cells in Hc. set_solver.
Qed.

Lemma unvisited_bound (visited : gset Z) :
  (size (all_cells ∖ visited) <= 16)%nat.
Proof.
  rewrite <- all_cells_size. apply subseteq_size. set_solver.
Qed.

(** ** Win detection *)

Section WinnerLoop.

Variables (board : Board) (value : Z) (goal : list Z).
Variable is_start : Z -> Prop.
Hypothesis start_owned : ∀ s, is_start s -> owned board value s.

(** The cells joined to a start cell by a chain of stones. *)
Let from_start (c : Z) : Prop := ∃ s, is_start s ∧ chain board value s c.

Lemma elem_of_push (l stack : list Z) (x : Z) :
  x ∈ fold_left (push_stone board value) l stack
  ↔ x ∈ stack ∨ (x ∈ l ∧ cell board (x / SIZE) (x mod SIZE) = value).
Proof.
  revert stack. induction l as [|n l IH]; intros stack; simpl.
  - split; [auto | intros [H | [H _]]; [exact H | inversion H]].
  - rewrite IH. unfold push_stone.
    destruct (Z.eqb_spec (cell board (n / SIZE) (n mod SIZE)) value) as [Hn | Hn];
      rewrite ?elem_of_cons; split; intros H; try tauto.
    + destruct H as [[-> | H] | H]; tauto.
    + destruct H as [H | [[-> | H] Hv]]; tauto.
Qed.

Lemma length_push (l stack : list Z) :
  (length (fold_left (push_stone board value) l stack) <= length stack + length l)%nat.
Proof.
  revert stack. induction l as [|n l IH]; intros stack; simpl; [lia|].
  etransitivity; [apply IH|]. unfold push_stone. case_match; simpl; lia.
Qed.

(** What the loop keeps true: the stack holds reached cells only; start
    cells and stone neighbours of visited cells are on the stack or
    visited; no visited cell is a goal. *)
Record winner_inv (stack : list Z) (visited : gset Z) : Prop := {
  inv_stack : ∀ c, c ∈ stack -> from_start c;
  inv_start : ∀ s, is_start s -> s ∈ stack ∨ s ∈ visited;
  inv_closed : ∀ v n, v ∈ visited -> hex_adjacent v n -> owned board value n ->
                      n ∈ stack ∨ n ∈ visited;
  inv_goal : ∀ v, v ∈ visited -> v ∉ goal
}.

Lemma winner_inv_all_visited (visited : gset Z) (c : Z) :
  winner_inv [] visited -> from_start c -> c ∈ visited.
Proof.
  intros Hinv (s & Hs & Hch).
  induction Hch as [a Ha | a b c Hab IH Hadj Hc].
  - destruct (inv_start _ _ Hinv a Hs) as [H | H]; [inversion H | exact H].
  - destruct (inv_closed _ _ Hinv b c (IH Hs) Hadj Hc) as [H | H];
      [inversion H | exact H].
Qed.

Lemma check_winner_loop_spec (fuel : nat) (stack : list Z) (visited : gset Z) :
  winner_inv stack visited ->
  (7 * size (all_cells ∖ visited) + length stack < fuel)%nat ->
  ∃ b, check_winner_loop fuel board value goal stack visited = Some b ∧
       (b = true ↔ ∃ g, g ∈ goal ∧ from_start g).
Proof.
  revert stack visited.
  induction fuel as [|fuel IH]; intros stack visited Hinv Hfuel; [lia|].
  destruct stack as [|current stack]; simpl.
  - exists false. split; [reflexivity|]. split; [discriminate|].
    intros (g & Hg & Hfrom). exfalso.
    eapply inv_goal; eauto using winner_inv_all_visited.
  - case_bool_decide as Hgoal.
    { exists true. split; [reflexivity|]. split; [|reflexivity].
      intros _. exists current. split; [exact Hgoal|].
      apply (inv_stack _ _ Hinv). left. }
    case_bool_decide as Hvis.
    { apply IH; [|simpl in Hfuel; lia].
      destruct Hinv as [I1 I2 I3 I4]. split.
      - intros c Hc. apply I1. now right.
      - intros s Hs. destruct (I2 s Hs) as [[-> | H]%elem_of_cons | H]; auto.
      - intros v n Hv Hadj Hn.
        destruct (I3 v n Hv Hadj Hn) as [[-> | H]%elem_of_cons | H]; auto.
      - exact I4. }
    assert (Hcur : from_start current) by (apply (inv_stack _ _ Hinv); left).
    assert (Hcur_in : in_board current).
    { destruct Hcur as (s & _ & Hch). destruct Hch as [a [Ha _] | a b c _ _ [Hc _]]; assumption. }
    apply IH.
    + destruct Hinv as [I1 I2 I3 I4]. split.
      * intros c [Hc | [Hc Hv]]%elem_of_push.
        -- apply I1. now right.
        -- destruct Hcur as (s & Hs & Hch). exists s. split; [exact Hs|].
           eapply chain_step; [exact Hch | now apply elem_of_get_neighbors |].
           split; [eapply get_neighbors_in_board; eauto | exact Hv].
      * intros s Hs. rewrite elem_of_push.
        destruct (I2 s Hs) as [[-> | H]%elem_of_cons | H]; [right | auto | right];
          set_solver.
      * intros v n [Hv | ->%elem_of_singleton]%elem_of_union Hadj Hn;
          rewrite elem_of_push.
        -- destruct (I3 v n Hv Hadj Hn) as [[-> | H]%elem_of_cons | H];
             [right | auto | right]; set_solver.
        -- left. right. split; [now apply elem_of_get_neighbors | apply Hn].
      * intros v [Hv | ->%elem_of_singleton]%elem_of_union; auto.
    + pose proof (length_push (get_neighbors current) stack).
      pose proof (get_neighbors_length current).
      pose proof (unvisited_decreases visited current Hcur_in Hvis).
      simpl in Hfuel. lia.
Qed.

End WinnerLoop.

Lemma chain_owned_l (board : Board) (value a b : Z) :
  chain board value a b -> owned board value a.
Proof. induction 1; assumption. Qed.

Lemma chain_owned_r (board : Board) (value a b : Z) :
  chain board value a b -> owned board value b.
Proof. destruct 1; assumption. Qed.

Ltac list_cases H :=
  repeat (apply elem_of_cons in H as [H | H]; [subst | ]);
  [.. | apply elem_of_nil in H; destruct H].

(** The start and goal lists of [check_winner] are the stones of the player
    on the two edges. *)
Lemma elem_of_winner_start (board : Board) (player s : Z) :
  wf_board board -> player = 1 ∨ player = -1 ->
  s ∈ winner_start board player player
  ↔ owned board player s ∧ on_start_edge player s.
Proof.
  intros Hwf Hp. explicit_board Hwf.
  unfold winner_start, owned, on_start_edge.
  destruct Hp as [-> | ->]; simpl (_ =? _); cbv iota;
    rewrite list_elem_of_filter.
  - change (Py.range SIZE) with [0; 1; 2; 3].
    split.
    + intros [Hv Hin]. list_cases Hin;
        (split; [split; [unfold in_board, SIZE; lia | exact Hv] | reflexivity]).
    + intros [[Hin Hv] He]. board_cases Hin; try discriminate He;
        (split; [exact Hv | set_solver]).
  - change (Py.range3 0 (SIZE * SIZE) SIZE) with [0; 4; 8; 12].
    split.
    + intros [Hv Hin]. list_cases Hin;
        (split; [split; [unfold in_board, SIZE; lia | exact Hv] | reflexivity]).
    + intros [[Hin Hv] He]. board_cases Hin; try discriminate He;
        (split; [exact Hv | set_solver]).
Qed.

Lemma elem_of_winner_goal (board : Board) (player g : Z) :
  wf_board board -> player = 1 ∨ player = -1 ->
  g ∈ winner_goal board player player
  ↔ owned board player g ∧ on_goal_edge player g.
Proof.
  intros Hwf Hp. explicit_board Hwf.
  unfold winner_goal, owned, on_goal_edge.
  destruct Hp as [-> | ->]; simpl (_ =? _); cbv iota;
    rewrite list_elem_of_filter.
  - change (Py.range2 (SIZE * (SIZE - 1)) (SIZE * SIZE)) with [12; 13; 14; 15].
    split.
    + intros [Hv Hin]. list_cases Hin;
        (split; [split; [unfold in_board, SIZE; lia | exact Hv] | reflexivity]).
    + intros [[Hin Hv] He]. board_cases Hin; try discriminate He;
        (split; [exact Hv | set_solver]).
  - change (Py.range3 (SIZE - 1) (SIZE * SIZE) SIZE) with [3; 7; 11; 15].
    split.
    + intros [Hv Hin]. list_cases Hin;
        (split; [split; [unfold in_board, SIZE; lia | exact Hv] | reflexivity]).
    + intros [[Hin Hv] He]. board_cases Hin; try discriminate He;
        (split; [exact Hv | set_solver]).
Qed.

Lemma winner_start_length (board : Board) (player value : Z) :
  (length (winner_start board player value) <= 4)%nat.
Proof.
  unfold winner_start. destruct (player =? 1).
  - etransitivity; [apply length_filter|]. reflexivity.
  - etransitivity; [apply length_filter|]. reflexivity.
Qed.

(** The loop of [check_winner] ends within the fuel it is given, and finds
    exactly the connections. *)
Lemma check_winner_connected (board : Board) (player : Z) :
  wf_board board -> player = 1 ∨ player = -1 ->
  ∃ b, check_winner_loop winner_fuel board player
         (winner_goal board player player)
         (reverse (winner_start board player player)) ∅ = Some b
       ∧ (b = true ↔ connected board player).
Proof.
  intros Hwf Hp.
  destruct (check_winner_loop_spec board player
              (winner_goal board player player)
              (fun s => s ∈ winner_start board player player)
              (fun s Hs => proj1 (proj1 (elem_of_winner_start _ _ _ Hwf Hp) Hs))
              winner_fuel
              (reverse (winner_start board player player)) ∅) as (b & Hb & Hspec).
  - split.
    + intros c Hc. apply (proj1 (elem_of_reverse _ _)) in Hc.
      exists c. split; [exact Hc|].
      apply chain_one. now apply elem_of_winner_start in Hc as [Hc _].
    + intros s Hs. left. now apply (proj2 (elem_of_reverse _ _)).
    + intros v n Hv. set_solver.
    + intros v Hv. set_solver.
  - pose proof (unvisited_bound ∅).
    pose proof (winner_start_length board player player).
    rewrite length_reverse. unfold winner_fuel. lia.
  - exists b. split; [exact Hb|].
    assert (Hiff : connected board player ↔
                   ∃ g, g ∈ winner_goal board player player ∧
                        ∃ s, s ∈ winner_start board player player ∧
                             chain board player s g).
    { split.
      - intros (s & g & Hs & Hg & Hch). exists g. split.
        + apply elem_of_winner_goal; eauto using chain_owned_r.
        + exists s. split; [|exact Hch].
          apply elem_of_winner_start; eauto using chain_owned_l.
      - intros (g & Hg & s & Hs & Hch). exists s, g.
        apply elem_of_winner_goal in Hg as [_ Hg]; [|assumption..].
        apply elem_of_winner_start in Hs as [_ Hs]; [|assumption..].
        auto. }
    rewrite Hiff. exact Hspec.
Qed.

(** Any player other than 1 is treated as player -1. *)
Lemma check_winner_other (board : Board) (player : Z) :
  player ≠ 1 -> check_winner board player = check_winner board (-1).
Proof.
  intros Hp. unfold check_winner, winner_start, winner_goal.
  apply Z.eqb_neq in Hp. rewrite Hp. reflexivity.
Qed.

Lemma check_winner_fuel_enough (board : Board) (player : Z) :
  wf_board board ->
  ∃ b, check_winner_loop winner_fuel board (if player =? 1 then 1 else -1)
         (winner_goal board player (if player =? 1 then 1 else -1))
         (reverse (winner_start board player (if player =? 1 then 1 else -1))) ∅
       = Some b.
Proof.
  intros Hwf. destruct (Z.eqb_spec player 1) as [-> | Hp].
  - destruct (check_winner_connected board 1 Hwf) as (b & Hb & _); eauto.
  - destruct (check_winner_connected board (-1) Hwf) as (b & Hb & _); [auto|].
    exists b. rewrite <- Hb. unfold winner_start, winner_goal.
    apply Z.eqb_neq in Hp. rewrite Hp. reflexivity.
Qed.

(** C7: [check_winner] answers true exactly when the stones of the player
    join the two edges of the player by a chain of adjacent cells; a row of
    four stones of player -1 on row 0 wins, a row of three does not. *)
Theorem check_winner_spec (board : Board) (player : Z) :
  wf_board board -> player = 1 ∨ player = -1 ->
  (check_winner board player = true ↔ connected board player)
  ∧ check_winner row0_chain4 (-1) = true
  ∧ check_winner row0_chain3 (-1) = false.
Proof.
  intros Hwf Hp. split; [|split; reflexivity].
  destruct (check_winner_connected board player Hwf Hp) as (b & Hb & Hiff).
  unfold check_winner.
  replace (if player =? 1 then 1 else -1) with player
    by (destruct Hp as [-> | ->]; reflexivity).
  rewrite Hb. exact Hiff.
Qed.

Lemma check_winner_spec_witness :
  (check_winner row0_chain4 (-1) = true ↔ connected row0_chain4 (-1))
  ∧ check_winner row0_chain4 (-1) = true
  ∧ check_winner row0_chain3 (-1) = false.
Proof.
  apply (check_winner_spec row0_chain4 (-1)).
  - split; [reflexivity | repeat constructor].
  - right. reflexivity.
Defined.

(** ** Shortest connection distance *)

Section ShortestPath.

Variables (board : Board) (target_value : Z).

(** The coordinate that has to grow from 0 to SIZE - 1: the row for
    player 1, the column for the other player. *)
Variable coord : Z -> Z.
Variable is_goal : Z -> bool.
Hypothesis coord_step : ∀ c n, n ∈ get_neighbors c -> coord n <= coord c + 1.
Hypothesis goal_coord : ∀ c, is_goal c = true -> coord c = SIZE - 1.

Lemma spl_visit_eq (dist : Z) (visited : gset Z) (queue : list (Z * Z)) (n : Z) :
  spl_visit board target_value dist (visited, queue) n
  = if (cell board (n / SIZE) (n mod SIZE) =? target_value)
       && negb (bool_decide (n ∈ visited))
    then (visited ∪ {[n]}, queue ++ [(n, dist + 1)])
    else (visited, queue).
Proof. reflexivity. Qed.

Lemma spl_visit_fold (dist : Z) (l : list Z) (visited : gset Z)
    (queue : list (Z * Z)) :
  Forall in_board l ->
  ∃ visited' queue',
    fold_left (spl_visit board target_value dist) l (visited, queue)
    = (visited', queue') ∧
    (size (all_cells ∖ visited') + length queue'
     <= size (all_cells ∖ visited) + length queue)%nat ∧
    ∀ c d, (c, d) ∈ queue' -> (c, d) ∈ queue ∨ (c ∈ l ∧ d = dist + 1).
Proof.
  intros Hl. revert visited queue.
  induction Hl as [|n l Hn _ IH]; intros visited queue; cbn [fold_left].
  - exists visited, queue. auto.
  - rewrite spl_visit_eq.
    destruct ((cell board (n / SIZE) (n mod SIZE) =? target_value)
              && negb (bool_decide (n ∈ visited))) eqn:Hc.
    + destruct (IH (visited ∪ {[n]}) (queue ++ [(n, dist + 1)]))
        as (v' & q' & -> & Hsize & Hq).
      exists v', q'. split; [reflexivity|]. split.
      * apply andb_prop in Hc as [_ Hc].
        apply negb_true_iff, bool_decide_eq_false in Hc.
        pose proof (unvisited_decreases visited n Hn Hc).
        rewrite length_app in Hsize. simpl in Hsize. lia.
      * intros c d [H | [H ->]]%Hq.
        -- apply elem_of_app in H as [H | H]; [auto|].
           apply list_elem_of_singleton in H as [= -> ->]. right. split; [left | reflexivity].
        -- right. split; [now right | reflexivity].
    + destruct (IH visited queue) as (v' & q' & -> & Hsize & Hq).
      exists v', q'. split; [reflexivity|]. split; [exact Hsize|].
      intros c d [H | [H ->]]%Hq; [auto|]. right. split; [now right | reflexivity].
Qed.

(** The loop ends before the fuel does. *)
Lemma spl_loop_total (fuel : nat) (queue : list (Z * Z)) (visited : gset Z) :
  (size (all_cells ∖ visited) + length queue < fuel)%nat ->
  ∃ r, spl_loop fuel board target_value is_goal queue visited = Some r.
Proof.
  revert queue visited.
  induction fuel as [|fuel IH]; intros queue visited Hfuel; [lia|].
  destruct queue as [|[current dist] queue]; simpl; [eauto|].
  destruct (is_goal current); [eauto|].
  destruct (spl_visit_fold dist (get_neighbors current) visited queue)
    as (v' & q' & -> & Hsize & _).
  { apply Forall_forall. intros n. apply get_neighbors_in_board. }
  apply IH. simpl in Hfuel. lia.
Qed.

(** A distance it returns is at least SIZE - 1. *)
Lemma spl_loop_bound (fuel : nat) (queue : list (Z * Z)) (visited : gset Z) (d : Z) :
  (∀ c dist, (c, dist) ∈ queue -> coord c <= dist) ->
  spl_loop fuel board target_value is_goal queue visited = Some (Some d) ->
  SIZE - 1 <= d.
Proof.
  revert queue visited.
  induction fuel as [|fuel IH]; intros queue visited Hq Hloop; [discriminate|].
  destruct queue as [|[current dist] queue]; simpl in Hloop; [discriminate|].
  destruct (is_goal current) eqn:Hgoal.
  - injection Hloop as <-. rewrite <- (goal_coord _ Hgoal). apply Hq. left.
  - destruct (spl_visit_fold dist (get_neighbors current) visited queue)
      as (v' & q' & Hfold & _ & Hq').
    { apply Forall_forall. intros n. apply get_neighbors_in_board. }
    rewrite Hfold in Hloop. eapply IH; [|exact Hloop].
    intros c dc [H | [H ->]]%Hq'.
    + apply Hq. now right.
    + pose proof (coord_step _ _ H). pose proof (Hq current dist ltac:(left)). lia.
Qed.

End ShortestPath.

Lemma spl_init_fold (starts : list Z) (visited : gset Z) (queue : list (Z * Z)) :
  ∃ visited',
    fold_left (fun '(visited, queue) s => (visited ∪ {[s]}, queue ++ [(s, 0)]))
              starts (visited, queue)
    = (visited', queue ++ ((fun s => (s, 0)) <$> starts)).
Proof.
  revert visited queue. induction starts as [|s starts IH]; intros visited queue; simpl.
  - exists visited. now rewrite app_nil_r.
  - destruct (IH (visited ∪ {[s]}) (queue ++ [(s, 0)])) as (v' & ->).
    exists v'. now rewrite <- app_assoc.
Qed.

Lemma spl_init_queue (starts : list Z) :
  ∃ visited, spl_init starts = (visited, (fun s => (s, 0)) <$> starts).
Proof. apply (spl_init_fold starts ∅ []). Qed.

Lemma spl_starts_length (board : Board) (player target_value : Z) :
  (length (spl_starts board player target_value) <= 4)%nat.
Proof.
  unfold spl_starts. destruct (player =? 1); rewrite ?length_fmap;
    (etransitivity; [apply length_filter | reflexivity]).
Qed.

(** The loop of [shortest_path_length] ends within [spl_fuel] rounds, on
    every board and for every player. *)
Lemma spl_loop_fuel_enough (board : Board) (player : Z) :
  let target_value := if player =? 1 then 1 else -1 in
  let '(visited, queue) := spl_init (spl_starts board player target_value) in
  ∃ r, spl_loop spl_fuel board target_value (spl_is_goal player) queue visited
       = Some r.
Proof.
  intros target_value.
  destruct (spl_init_queue (spl_starts board player target_value)) as (visited & ->).
  apply spl_loop_total.
  pose proof (unvisited_bound visited).
  pose proof (spl_starts_length board player target_value).
  rewrite length_fmap. unfold spl_fuel. lia.
Qed.

Lemma neighbor_row_step (c n : Z) :
  n ∈ get_neighbors c -> n / SIZE <= c / SIZE + 1.
Proof.
  intros [_ Hd]%elem_of_get_neighbors.
  list_cases Hd; match goal with H : (_, _) = (_, _) |- _ => injection H as H1 H2 end; lia.
Qed.

Lemma neighbor_col_step (c n : Z) :
  n ∈ get_neighbors c -> n mod SIZE <= c mod SIZE + 1.
Proof.
  intros [_ Hd]%elem_of_get_neighbors.
  list_cases Hd; match goal with H : (_, _) = (_, _) |- _ => injection H as H1 H2 end; lia.
Qed.

(** C10: a distance returned by [shortest_path_length] is at least
    SIZE - 1, and so never 0. *)
Theorem shortest_path_length_lower_bound (board : Board) (player d : Z) :
  player = 1 ∨ player = -1 ->
  shortest_path_length board player = Some d ->
  SIZE - 1 <= d ∧ d ≠ 0.
Proof.
  intros Hp Hspl.
  enough (SIZE - 1 <= d) by (unfold SIZE in *; lia).
  unfold shortest_path_length in Hspl.
  set (target_value := if player =? 1 then 1 else -1) in *.
  destruct (spl_init_queue (spl_starts board player target_value)) as (visited & Hinit).
  rewrite Hinit in Hspl.
  destruct (spl_loop spl_fuel board target_value (spl_is_goal player)
              ((fun s => (s, 0)) <$> spl_starts board player target_value) visited)
    as [r|] eqn:Hloop; [|discriminate].
  subst r.
  destruct Hp as [-> | ->].
  - eapply (spl_loop_bound board target_value (fun c => c / SIZE)
              (spl_is_goal 1) neighbor_row_step); [| |exact Hloop].
    + intros c Hc. now apply Z.eqb_eq in Hc.
    + intros c dist Hc. apply list_elem_of_fmap in Hc as (s & [= -> ->] & Hs).
      unfold spl_starts in Hs. simpl in Hs.
      apply list_elem_of_filter in Hs as [_ Hs]. apply elem_of_seqZ in Hs.
      unfold SIZE in *. Z.div_mod_to_equations. lia.
  - eapply (spl_loop_bound board target_value (fun c => c mod SIZE)
              (spl_is_goal (-1)) neighbor_col_step); [| |exact Hloop].
    + intros c Hc. now apply Z.eqb_eq in Hc.
    + intros c dist Hc. apply list_elem_of_fmap in Hc as (s & [= -> ->] & Hs).
      unfold spl_starts in Hs. simpl in Hs.
      apply list_elem_of_fmap in Hs as (r & -> & Hr).
      unfold SIZE. Z.div_mod_to_equations. lia.
Qed.

Lemma shortest_path_length_lower_bound_witness :
  SIZE - 1 <= 3 ∧ 3 ≠ 0.
Proof.
  apply (shortest_path_length_lower_bound
           [[1; 0; 0; 0]; [1; 0; 0; 0]; [1; 0; 0; 0]; [1; 1; 0; 0]] 1 3).
  - left. reflexivity.
  - reflexivity.
Defined.

(** ** Move ordering *)

Lemma insert_desc_perm (x : Z * Z) (l : list (Z * Z)) :
  insert_desc x l ≡ₚ x :: l.
Proof.
  induction l as [|y l IH]; simpl; [reflexivity|].
  destruct (x.2 <? y.2); [|reflexivity].
  rewrite IH. apply Permutation_swap.
Qed.

Lemma sort_desc_perm (l : list (Z * Z)) : sort_desc l ≡ₚ l.
Proof.
  induction l as [|x l IH]; simpl; [reflexivity|].
  rewrite insert_desc_perm. now rewrite IH.
Qed.

Lemma order_moves_fold (board : Board) (player : Z) (actions : list Z)
    (scored : list (Z * Z)) :
  wf_board board -> Forall (is_empty_cell board) actions ->
  ∃ scored',
    fold_left (order_moves_step player) actions (scored, board)
    = (scored ++ scored', board) ∧ scored'.*1 = actions.
Proof.
  intros Hwf Hall. revert scored.
  induction Hall as [|a actions [Ha Hz] _ IH]; intros scored; simpl.
  - exists []. now rewrite app_nil_r.
  - rewrite put_undo by assumption.
    destruct (IH (scored ++
                  [(a, evaluate_board (put board (a / SIZE) (a mod SIZE) player) player)]))
      as (scored' & -> & Hfst).
    eexists (_ :: scored'). rewrite <- app_assoc.
    split; [reflexivity|]. rewrite fmap_cons, Hfst. reflexivity.
Qed.

(** [order_moves] hands the board back as it got it, and returns the moves
    it was given, in some order. *)
Lemma order_moves_spec (board : Board) (player : Z) (actions : list Z) :
  wf_board board -> Forall (is_empty_cell board) actions ->
  ∃ ordered, order_moves board actions player = (ordered, board)
             ∧ ordered ≡ₚ actions.
Proof.
  intros Hwf Hall. unfold order_moves.
  destruct (order_moves_fold board player actions [] Hwf Hall) as (scored & -> & Hfst).
  simpl. eexists. split; [reflexivity|].
  rewrite sort_desc_perm. now rewrite Hfst.
Qed.

Lemma valid_actions_empty (board : Board) :
  Forall (is_empty_cell board) (valid_actions_of board).
Proof. apply Forall_forall. intros a Ha. now apply elem_of_valid_actions. Qed.

(** ** The search *)

Section SearchProofs.

Variable table : list (Z * Z).

(** One level of [negamax]. *)
Lemma negamax_fuel_unfold (fuel : nat) (board : Board) (depth : Z)
    (alpha beta : score) (player : Z) (cache : Cache) :
  negamax_fuel table (S fuel) board depth alpha beta player cache
  = if check_winner board (- player)
    then Some (Fin (-999999 + depth), None, board, cache)
    else
      if bool_decide (valid_actions_of board = [])
      then Some (Fin 0, None, board, cache)
      else if depth =? 0
      then Some (Fin (evaluate_board board player), None, board, cache)
      else
        match cache !! (compute_zobrist_hash table board, player, depth) with
        | Some (sc, mv) => Some (sc, mv, board, cache)
        | None =>
            let '(ordered_actions, board1) :=
              order_moves board (valid_actions_of board) player in
            match search_loop
                    (fun b a be ca =>
                       negamax_fuel table fuel b (depth - 1) a be (- player) ca)
                    ordered_actions alpha beta player NegInf None
                    board1 cache with
            | None => None
            | Some (best_score, best_move, board2, cache2) =>
                Some (best_score, best_move, board2,
                      <[(compute_zobrist_hash table board, player, depth)
                        := (best_score, best_move)]> cache2)
            end
        end.
Proof. reflexivity. Qed.

Lemma negamax_eq (board : Board) (depth : Z) (alpha beta : score)
    (player : Z) (cache : Cache) :
  negamax table board depth alpha beta player cache
  = negamax_fuel table (S (Z.to_nat depth)) board depth alpha beta player cache.
Proof. unfold negamax. reflexivity. Qed.

(** The board comes back from the loop as it went in, when it comes back
    so from every recursive call. *)
Lemma search_loop_board
    (rec : Board -> score -> score -> Cache -> option Result)
    (actions : list Z) (alpha beta : score) (player : Z)
    (best_score : score) (best_move : option Z) (board : Board) (cache : Cache)
    (bs : score) (bm : option Z) (b' : Board) (c' : Cache) :
  (∀ b a be ca sc mv b1 c1,
      wf_board b -> rec b a be ca = Some (sc, mv, b1, c1) -> b1 = b) ->
  wf_board board -> Forall (is_empty_cell board) actions ->
  search_loop rec actions alpha beta player best_score best_move board cache
  = Some (bs, bm, b', c') ->
  b' = board.
Proof.
  intros Hrec Hwf Hall.
  revert alpha best_score best_move cache.
  induction Hall as [|a actions [Ha Hz] Hall IH];
    intros alpha best_score best_move cache Hloop; simpl in Hloop.
  - now injection Hloop as _ _ <- _.
  - destruct (rec (put board (a / SIZE) (a mod SIZE) player)
                  (Score.neg beta) (Score.neg alpha) cache)
      as [[[[sc mv] b1] c1]|] eqn:Hcall; [|discriminate].
    apply Hrec in Hcall; [|now apply put_wf]. subst b1.
    rewrite put_undo in Hloop by assumption.
    destruct (Score.ltb best_score (Score.neg sc));
      destruct (Score.geb (Score.max alpha (Score.neg sc)) beta);
      try (now injection Hloop as _ _ <- _); eapply IH; eauto.
Qed.

(** C2, the recursion: whatever the fuel, the depth, the window, the
    player and the cache, a call that returns hands the board back as it
    got it. *)
Lemma negamax_fuel_board (fuel : nat) :
  ∀ board depth alpha beta player cache sc mv b' c',
    wf_board board ->
    negamax_fuel table fuel board depth alpha beta player cache
    = Some (sc, mv, b', c') ->
    b' = board.
Proof.
  induction fuel as [|fuel IH];
    intros board depth alpha beta player cache sc mv b' c' Hwf Hcall;
    [discriminate|].
  rewrite negamax_fuel_unfold in Hcall.
  destruct (check_winner board (- player)); [now injection Hcall as _ _ <- _|].
  case_bool_decide; [now injection Hcall as _ _ <- _|].
  destruct (depth =? 0); [now injection Hcall as _ _ <- _|].
  destruct (cache !! (compute_zobrist_hash table board, player, depth))
    as [[sc0 mv0]|]; [now injection Hcall as _ _ <- _|].
  destruct (order_moves_spec board player (valid_actions_of board) Hwf
              (valid_actions_empty board)) as (ordered & Hord & Hperm).
  rewrite Hord in Hcall.
  destruct (search_loop _ ordered alpha beta player NegInf None board cache)
    as [[[[bs bm] b1] c1]|] eqn:Hloop; [|discriminate].
  injection Hcall as _ _ <- _.
  eapply search_loop_board; [| exact Hwf | | exact Hloop].
  - intros b a be ca sc1 mv1 b2 c2 Hb Hrec. eapply IH; [exact Hb | exact Hrec].
  - rewrite Hperm. apply valid_actions_empty.
Qed.

(** The loop returns when every recursive call does. *)
Lemma search_loop_total
    (rec : Board -> score -> score -> Cache -> option Result)
    (actions : list Z) (alpha beta : score) (player : Z)
    (best_score : score) (best_move : option Z) (board : Board) (cache : Cache) :
  (∀ b a be ca, wf_board b -> ∃ sc mv c1, rec b a be ca = Some (sc, mv, b, c1)) ->
  wf_board board -> Forall (is_empty_cell board) actions ->
  ∃ bs bm c',
    search_loop rec actions alpha beta player best_score best_move board cache
    = Some (bs, bm, board, c').
Proof.
  intros Hrec Hwf Hall.
  revert alpha best_score best_move cache.
  induction Hall as [|a actions [Ha Hz] Hall IH];
    intros alpha best_score best_move cache; simpl; [eauto|].
  destruct (Hrec (put board (a / SIZE) (a mod SIZE) player)
                 (Score.neg beta) (Score.neg alpha) cache)
    as (sc & mv & c1 & ->); [now apply put_wf|].
  rewrite put_undo by assumption.
  destruct (Score.ltb best_score (Score.neg sc));
    destruct (Score.geb (Score.max alpha (Score.neg sc)) beta); eauto.
Qed.

(** [negamax] returns for every non-negative depth: the recursion is at
    most [depth + 1] calls deep. *)
Lemma negamax_fuel_total (fuel : nat) :
  ∀ board depth alpha beta player cache,
    wf_board board -> 0 <= depth -> (Z.to_nat depth < fuel)%nat ->
    ∃ sc mv c',
      negamax_fuel table fuel board depth alpha beta player cache
      = Some (sc, mv, board, c').
Proof.
  induction fuel as [|fuel IH];
    intros board depth alpha beta player cache Hwf Hd Hfuel; [lia|].
  rewrite negamax_fuel_unfold.
  destruct (check_winner board (- player)); [eauto|].
  case_bool_decide; [eauto|].
  destruct (Z.eqb_spec depth 0); [eauto|].
  destruct (cache !! (compute_zobrist_hash table board, player, depth))
    as [[sc0 mv0]|]; [eauto|].
  destruct (order_moves_spec board player (valid_actions_of board) Hwf
              (valid_actions_empty board)) as (ordered & -> & Hperm).
  edestruct (search_loop_total
               (fun b a be ca =>
                  negamax_fuel table fuel b (depth - 1) a be (- player) ca)
               ordered alpha beta player NegInf None board cache)
    as (bs & bm & c1 & ->); [| exact Hwf | | eauto].
  - intros b a be ca Hb. apply IH; [exact Hb | lia | lia].
  - rewrite Hperm. apply valid_actions_empty.
Qed.

Lemma negamax_total (board : Board) (depth : Z) (alpha beta : score)
    (player : Z) (cache : Cache) :
  wf_board board -> 0 <= depth ->
  ∃ sc mv c', negamax table board depth alpha beta player cache
              = Some (sc, mv, board, c').
Proof. intros Hwf Hd. apply negamax_fuel_total; [assumption | assumption | lia]. Qed.

(** More fuel does not change a result. *)
Lemma search_loop_mono
    (rec1 rec2 : Board -> score -> score -> Cache -> option Result)
    (actions : list Z) (alpha beta : score) (player : Z)
    (best_score : score) (best_move : option Z) (board : Board) (cache : Cache)
    (r : Result) :
  (∀ b a be ca r, rec1 b a be ca = Some r -> rec2 b a be ca = Some r) ->
  search_loop rec1 actions alpha beta player best_score best_move board cache = Some r ->
  search_loop rec2 actions alpha beta player best_score best_move board cache = Some r.
Proof.
  intros Hrec. revert alpha best_score best_move board cache.
  induction actions as [|a actions IH];
    intros alpha best_score best_move board cache Hloop; simpl in *; [exact Hloop|].
  destruct (rec1 (put board (a / SIZE) (a mod SIZE) player)
                 (Score.neg beta) (Score.neg alpha) cache)
    as [[[[sc mv] b1] c1]|] eqn:Hcall; [|discriminate].
  rewrite (Hrec _ _ _ _ _ Hcall).
  destruct (Score.ltb best_score (Score.neg sc));
    destruct (Score.geb (Score.max alpha (Score.neg sc)) beta);
    auto.
Qed.

Lemma negamax_fuel_mono (fuel : nat) :
  ∀ board depth alpha beta player cache r,
    negamax_fuel table fuel board depth alpha beta player cache = Some r ->
    negamax_fuel table (S fuel) board depth alpha beta player cache = Some r.
Proof.
  induction fuel as [|fuel IH];
    intros board depth alpha beta player cache r Hcall; [discriminate|].
  rewrite negamax_fuel_unfold in Hcall. rewrite negamax_fuel_unfold.
  destruct (check_winner board (- player)); [exact Hcall|].
  case_bool_decide; [exact Hcall|].
  destruct (depth =? 0); [exact Hcall|].
  destruct (cache !! (compute_zobrist_hash table board, player, depth))
    as [[sc0 mv0]|]; [exact Hcall|].
  destruct (order_moves board (valid_actions_of board) player) as [ordered b0].
  destruct (search_loop _ ordered alpha beta player NegInf None b0 cache)
    as [[[[bs bm] b1] c1]|] eqn:Hloop; [|discriminate].
  eapply search_loop_mono in Hloop; [|intros b a be ca r0; apply IH].
  cbv beta in Hloop. rewrite Hloop. exact Hcall.
Qed.

End SearchProofs.

(** C3: when the side that moved last has won, [negamax] answers
    [(-999999 + depth, None)] at once, for every depth, and leaves the cache
    (which it has not looked at) and the board as they were. *)
Theorem negamax_terminal (table : list (Z * Z)) (board : Board) (depth : Z)
    (alpha beta : score) (player : Z) (cache : Cache) :
  check_winner board (- player) = true ->
  negamax table board depth alpha beta player cache
  = Some (Fin (-999999 + depth), None, board, cache)
  ∧ ∀ fuel, negamax_fuel table (S fuel) board depth alpha beta player cache
            = Some (Fin (-999999 + depth), None, board, cache).
Proof.
  intros Hwin. unfold negamax. split; [|intros fuel];
    rewrite negamax_fuel_unfold, Hwin; reflexivity.
Qed.

Lemma negamax_terminal_witness :
  negamax sample_table row0_chain4 5 NegInf PosInf 1 ∅
  = Some (Fin (-999999 + 5), None, row0_chain4, ∅)
  ∧ ∀ fuel, negamax_fuel sample_table (S fuel) row0_chain4 5 NegInf PosInf 1 ∅
            = Some (Fin (-999999 + 5), None, row0_chain4, ∅).
Proof.
  apply (negamax_terminal sample_table row0_chain4 5 NegInf PosInf 1 ∅).
  reflexivity.
Defined.

(** C2: a call of [negamax], and so a call of [find_best_move], gives the
    board back cell for cell as it was: whenever a call returns (whatever the
    depth and the fuel), and it does return for every depth that is not
    negative.  The Zobrist table is one that [init_zobrist] has filled. *)
Theorem negamax_restores_board (table : list (Z * Z)) (board : Board)
    (depth : Z) (alpha beta : score) (player : Z) (cache : Cache) :
  zobrist_table_ok table -> wf_board board ->
  (∀ fuel sc mv b' c',
      negamax_fuel table fuel board depth alpha beta player cache
      = Some (sc, mv, b', c') -> b' = board)
  ∧ (0 <= depth ->
     (∃ sc mv c', negamax table board depth alpha beta player cache
                  = Some (sc, mv, board, c'))
     ∧ ∀ cache0, ∃ mv, find_best_move table board player depth cache0
                       = Some (mv, board)).
Proof.
  intros _ Hwf. split.
  - intros fuel sc mv b' c' Hcall. eapply negamax_fuel_board; eauto.
  - intros Hd. split; [now apply negamax_total|].
    intros cache0. unfold find_best_move.
    edestruct negamax_total as (sc & mv & c' & ->); [exact Hwf | exact Hd |].
    eauto.
Qed.

Lemma negamax_restores_board_witness :
  (∀ fuel sc mv b' c',
      negamax_fuel sample_table fuel row0_chain3 2 NegInf PosInf 1 ∅
      = Some (sc, mv, b', c') -> b' = row0_chain3)
  ∧ (0 <= 2 ->
     (∃ sc mv c', negamax sample_table row0_chain3 2 NegInf PosInf 1 ∅
                  = Some (sc, mv, row0_chain3, c'))
     ∧ ∀ cache0, ∃ mv, find_best_move sample_table row0_chain3 1 2 cache0
                       = Some (mv, row0_chain3)).
Proof.
  apply (negamax_restores_board sample_table row0_chain3 2 NegInf PosInf 1 ∅).
  - sample_table_is_ok.
  - split; [reflexivity | repeat constructor].
Defined.

Lemma sample_table_ok : zobrist_table_ok sample_table.
Proof.
  split; [reflexivity|].
  apply Forall_forall. intros e He.
  apply list_elem_of_fmap in He as (k & -> & Hk). apply elem_of_seqZ in Hk.
  simpl. lia.
Qed.

Lemma zobrist_hash_content_witness :
  (∀ b1 b2, same_cells b1 b2 ->
            compute_zobrist_hash sample_table b1 = compute_zobrist_hash sample_table b2)
  ∧ (∀ b0 s1 s2 b1 b2,
       wf_board b0 -> Forall (fun st => in_board st.1) s1 -> s1 ≡ₚ s2 ->
       play b0 s1 = Some b1 -> play b0 s2 = Some b2 ->
       compute_zobrist_hash sample_table b1 = compute_zobrist_hash sample_table b2)
  ∧ (∀ b, stones_only b ->
          compute_zobrist_hash sample_table b = zobrist_xor sample_table b)
  ∧ (∀ b, 0 <= compute_zobrist_hash sample_table b < 2 ^ 64).
Proof.
  apply (zobrist_hash_content sample_table).
  split; [reflexivity|].
  apply Forall_forall. intros e He.
  apply list_elem_of_fmap in He as (k & -> & Hk). apply elem_of_seqZ in Hk.
  simpl. lia.
Defined.

(** Stones played in two orders, and their common hash. *)
Example zobrist_two_orders :
  ∃ b1 b2,
    play row0_chain3 [(5, 1); (9, -1); (6, 1)] = Some b1 ∧
    play row0_chain3 [(6, 1); (5, 1); (9, -1)] = Some b2 ∧
    compute_zobrist_hash sample_table b1 = compute_zobrist_hash sample_table b2.
Proof. do 2 eexists. repeat split. Qed.

(** ** What the search returns *)

Section SearchResult.

Variable table : list (Z * Z).

(** The loop keeps a best move among the moves it was given, with a number
    for its score, when the recursive calls return numbers. *)
Lemma search_loop_best
    (rec : Board -> score -> score -> Cache -> option Result)
    (moves actions : list Z) (alpha beta : score) (player : Z)
    (best_score : score) (best_move : option Z) (board : Board) (cache : Cache)
    (bs : score) (bm : option Z) (b' : Board) (c' : Cache) :
  (∀ b a be ca sc mv b1 c1,
      wf_board b -> cache_fin ca -> rec b a be ca = Some (sc, mv, b1, c1) ->
      b1 = b ∧ cache_fin c1 ∧ ∃ z, sc = Fin z) ->
  wf_board board -> Forall (is_empty_cell board) actions ->
  (∀ a, a ∈ actions -> a ∈ moves) ->
  cache_fin cache -> best_so_far moves best_score best_move ->
  search_loop rec actions alpha beta player best_score best_move board cache
  = Some (bs, bm, b', c') ->
  cache_fin c' ∧ best_so_far moves bs bm
  ∧ (actions ≠ [] ∨ best_score ≠ NegInf ->
     ∃ z a, bs = Fin z ∧ bm = Some a ∧ a ∈ moves).
Proof.
  intros Hrec Hwf Hall.
  revert alpha best_score best_move cache.
  induction Hall as [|a actions [Ha Hz] Hall IH];
    intros alpha best_score best_move cache Hsub Hfin Hbest Hloop; simpl in Hloop.
  - injection Hloop as <- <- _ <-.
    repeat split; try assumption. intros [H | H]; [congruence|].
    destruct Hbest as [[-> _] | Hbest]; [congruence | exact Hbest].
  - destruct (rec (put board (a / SIZE) (a mod SIZE) player)
                  (Score.neg beta) (Score.neg alpha) cache)
      as [[[[sc mv] b1] c1]|] eqn:Hcall; [|discriminate].
    apply Hrec in Hcall as (-> & Hfin1 & z & ->); [|now apply put_wf | exact Hfin].
    rewrite put_undo in Hloop by assumption.
    assert (Hnext : ∃ z' a',
               (if Score.ltb best_score (Score.neg (Fin z))
                then (Score.neg (Fin z), Some a) else (best_score, best_move))
               = (Fin z', Some a') ∧ a' ∈ moves).
    { destruct Hbest as [[-> ->] | (z0 & a0 & -> & -> & Ha0)]; simpl.
      - exists (- z), a. split; [reflexivity|]. apply Hsub. left.
      - destruct (z0 <? - z).
        + exists (- z), a. split; [reflexivity|]. apply Hsub. left.
        + exists z0, a0. auto. }
    destruct Hnext as (z' & a' & Hnext & Ha').
    rewrite Hnext in Hloop.
    assert (Hbest' : best_so_far moves (Fin z') (Some a'))
      by (right; exists z', a'; auto).
    destruct (Score.geb (Score.max alpha (Score.neg (Fin z))) beta).
    + injection Hloop as <- <- _ <-. repeat split; eauto.
    + destruct (IH _ _ _ _ ltac:(intros x Hx; apply Hsub; now right)
                  Hfin1 Hbest' Hloop) as (Hc & Hb & Hs).
      repeat split; try assumption.
      intros _. apply Hs. right. discriminate.
Qed.

(** Starting from a cache of numbers, [negamax] returns a number and leaves
    a cache of numbers. *)
Lemma negamax_fuel_fin (fuel : nat) :
  ∀ board depth alpha beta player cache sc mv b' c',
    wf_board board -> cache_fin cache ->
    negamax_fuel table fuel board depth alpha beta player cache
    = Some (sc, mv, b', c') ->
    b' = board ∧ cache_fin c' ∧ ∃ z, sc = Fin z.
Proof.
  induction fuel as [|fuel IH];
    intros board depth alpha beta player cache sc mv b' c' Hwf Hfin Hcall;
    [discriminate|].
  split; [eapply negamax_fuel_board; eauto|].
  rewrite negamax_fuel_unfold in Hcall.
  destruct (check_winner board (- player)); [injection Hcall as <- _ _ <-; eauto|].
  case_bool_decide as Hnil; [injection Hcall as <- _ _ <-; eauto|].
  destruct (depth =? 0); [injection Hcall as <- _ _ <-; eauto|].
  destruct (cache !! (compute_zobrist_hash table board, player, depth))
    as [[sc0 mv0]|] eqn:Hhit.
  { injection Hcall as <- _ _ <-. split; [exact Hfin | eapply Hfin; eauto]. }
  destruct (order_moves_spec board player (valid_actions_of board) Hwf
              (valid_actions_empty board)) as (ordered & Hord & Hperm).
  rewrite Hord in Hcall.
  destruct (search_loop _ ordered alpha beta player NegInf None board cache)
    as [[[[bs bm] b1] c1]|] eqn:Hloop; [|discriminate].
  injection Hcall as <- _ _ <-.
  eapply (search_loop_best _ ordered) in Hloop as (Hc1 & _ & Hsome).
  - destruct Hsome as (z & a & -> & _).
    { left. intros ->. apply Permutation_nil_l in Hperm. congruence. }
    split; [|eauto].
    intros k sc1 mv1 Hk. apply lookup_insert_Some in Hk as [[_ [= <- _]] | [_ Hk]];
      [eauto | eapply Hc1; eauto].
  - intros b a be ca sc1 mv1 b2 c2 Hb Hca Hrec. eapply IH; [exact Hb | exact Hca | exact Hrec].
  - exact Hwf.
  - rewrite Hperm. apply valid_actions_empty.
  - auto.
  - exact Hfin.
  - left. auto.
Qed.

Lemma cache_fin_empty : cache_fin ∅.
Proof. intros k sc mv Hk. rewrite lookup_empty in Hk. discriminate. Qed.

Lemma no_valid_actions (board : Board) :
  valid_actions_of board = [] ↔ ∀ a, ¬ is_empty_cell board a.
Proof.
  split.
  - intros Hnil a Ha. apply elem_of_valid_actions in Ha. rewrite Hnil in Ha.
    inversion Ha.
  - intros Hno. destruct (valid_actions_of board) as [|a l] eqn:Hv; [reflexivity|].
    exfalso. apply (Hno a). apply elem_of_valid_actions. rewrite Hv. left.
Qed.

End SearchResult.

(** The top call of a search that starts with an empty cache. *)
Lemma negamax_fuel_root (table : list (Z * Z)) (fuel : nat) (board : Board)
    (depth : Z) (alpha beta : score) (player : Z)
    (sc : score) (mv : option Z) (b' : Board) (c' : Cache) :
  wf_board board -> depth ≠ 0 ->
  negamax_fuel table (S fuel) board depth alpha beta player ∅
  = Some (sc, mv, b', c') ->
  (∀ a, mv = Some a -> is_empty_cell board a)
  ∧ (check_winner board (- player) = false ->
     (mv = None ↔ ∀ a, ¬ is_empty_cell board a)).
Proof.
  intros Hwf Hd Hcall.
  rewrite negamax_fuel_unfold in Hcall.
  destruct (check_winner board (- player)).
  { injection Hcall as _ <- _. split; [discriminate | discriminate]. }
  case_bool_decide as Hnil.
  { injection Hcall as _ <- _. split; [discriminate|].
    intros _. split; [intros _; now apply no_valid_actions | reflexivity]. }
  destruct (Z.eqb_spec depth 0) as [|_]; [contradiction|].
  rewrite lookup_empty in Hcall.
  destruct (order_moves_spec board player (valid_actions_of board) Hwf
              (valid_actions_empty board)) as (ordered & Hord & Hperm).
  rewrite Hord in Hcall.
  destruct (search_loop _ ordered alpha beta player NegInf None board ∅)
    as [[[[bs bm] b1] c1]|] eqn:Hloop; [|discriminate].
  injection Hcall as _ <- _.
  eapply (search_loop_best _ (valid_actions_of board) ordered)
    in Hloop as (_ & _ & Hsome).
  - destruct Hsome as (z & a & _ & -> & Ha).
    { left. intros ->. apply Permutation_nil_l in Hperm. congruence. }
    split.
    + intros a' [= <-]. now apply elem_of_valid_actions.
    + intros _. split; [discriminate|].
      intros Hno. exfalso. apply (Hno a). now apply elem_of_valid_actions.
  - intros b a be ca sc1 mv1 b2 c2 Hb Hca Hrec.
    eapply negamax_fuel_fin; [exact Hb | exact Hca | exact Hrec].
  - exact Hwf.
  - rewrite Hperm. apply valid_actions_empty.
  - intros a Ha. now rewrite <- Hperm.
  - apply cache_fin_empty.
  - left. auto.
Qed.

Lemma negamax_fuel_won (table : list (Z * Z)) (fuel : nat) (board : Board)
    (depth : Z) (alpha beta : score) (player : Z) (cache : Cache)
    (sc : score) (mv : option Z) (b' : Board) (c' : Cache) :
  check_winner board (- player) = true ->
  negamax_fuel table (S fuel) board depth alpha beta player cache
  = Some (sc, mv, b', c') ->
  mv = None.
Proof.
  intros Hwin Hcall. rewrite negamax_fuel_unfold, Hwin in Hcall.
  now injection Hcall as _ <- _ _.
Qed.

(** C1, as the code has it: with a positive depth, its own fresh cache and a
    Zobrist table filled by [init_zobrist], [find_best_move] returns, leaves
    the board as it was, and its answer is an empty cell of the board or
    None; when the side that moved last has not already won, the answer is
    None exactly when no cell is empty; when that side has already won, the
    answer is None. *)
Theorem find_best_move_legal (table : list (Z * Z)) (board : Board)
    (player max_depth : Z) :
  zobrist_table_ok table -> wf_board board -> 0 < max_depth ->
  ∃ mv, find_best_move table board player max_depth None = Some (mv, board)
        ∧ (∀ a, mv = Some a -> is_empty_cell board a)
        ∧ (check_winner board (- player) = false ->
           (mv = None ↔ ∀ a, ¬ is_empty_cell board a))
        ∧ (check_winner board (- player) = true -> mv = None).
Proof.
  intros _ Hwf Hd.
  destruct (negamax_total table board max_depth NegInf PosInf player ∅ Hwf
              ltac:(lia)) as (sc & mv & c' & Hcall).
  exists mv. split.
  - unfold find_best_move. rewrite Hcall. reflexivity.
  - rewrite negamax_eq in Hcall.
    destruct (negamax_fuel_root table (Z.to_nat max_depth) board max_depth
                NegInf PosInf player sc mv board c' Hwf ltac:(lia) Hcall)
      as [Hlegal Hnone].
    split; [exact Hlegal|]. split; [exact Hnone|].
    intros Hwin. eapply negamax_fuel_won; [exact Hwin | exact Hcall].
Qed.

Lemma find_best_move_legal_witness :
  ∃ mv, find_best_move sample_table row0_chain3 1 2 None = Some (mv, row0_chain3)
        ∧ (∀ a, mv = Some a -> is_empty_cell row0_chain3 a)
        ∧ (check_winner row0_chain3 (- 1) = false ->
           (mv = None ↔ ∀ a, ¬ is_empty_cell row0_chain3 a))
        ∧ (check_winner row0_chain3 (- 1) = true -> mv = None).
Proof.
  apply (find_best_move_legal sample_table row0_chain3 1 2).
  - sample_table_is_ok.
  - split; [reflexivity | repeat constructor].
  - lia.
Defined.

(** C1 as stated fails: player -1 has already joined left to right on row 0;
    [find_best_move] for player 1 answers None although twelve cells are
    empty. *)
Lemma find_best_move_none_on_won_board :
  zobrist_table_ok sample_table ∧ wf_board row0_chain4 ∧ 0 < 2 ∧
  find_best_move sample_table row0_chain4 1 2 None = Some (None, row0_chain4) ∧
  is_empty_cell row0_chain4 4 ∧
  ¬ (None = @None Z ↔ ∀ a, ¬ is_empty_cell row0_chain4 a).
Proof.
  assert (He : is_empty_cell row0_chain4 4) by (split; [unfold in_board, SIZE; lia | reflexivity]).
  split; [sample_table_is_ok|].
  split; [split; [reflexivity | repeat constructor]|].
  split; [lia|].
  split; [reflexivity|].
  split; [exact He|].
  intros [H _]. exact (H eq_refl 4 He).
Qed.

(** ** Pruning *)

Lemma score_le_refl (a : score) : score_le a a.
Proof. destruct a; unfold score_le; simpl; try reflexivity. apply Z.ltb_irrefl. Qed.

Lemma score_le_trans (a b c : score) :
  score_le a b -> score_le b c -> score_le a c.
Proof.
  unfold score_le. destruct a, b, c; simpl; try congruence. lia.
Qed.

Lemma score_neg_le (a b : score) :
  score_le a b -> score_le (Score.neg b) (Score.neg a).
Proof. unfold score_le. destruct a, b; simpl; try congruence. lia. Qed.

Lemma score_le_max (a b : score) : score_le a (Score.max a b).
Proof.
  unfold Score.max. destruct (Score.ltb a b) eqn:Hlt; [|apply score_le_refl].
  unfold score_le. destruct a, b; simpl in *; try congruence. lia.
Qed.

(** In the loop of [negamax], [alpha] and [best_score] move together when
    they start together. *)
Lemma max_is_best (bs sc : score) (bm : option Z) (a : Z) :
  Score.max bs sc
  = (if Score.ltb bs sc then (sc, Some a) else (bs, bm)).1.
Proof. unfold Score.max. destruct (Score.ltb bs sc); reflexivity. Qed.

Lemma best_after_number (bs : score) (bm : option Z) (z a : Z) :
  bs ≠ PosInf ->
  ∃ z', (if Score.ltb bs (Fin z) then (Fin z, Some a) else (bs, bm)).1 = Fin z'.
Proof.
  intros Hbs. destruct bs as [|z0|]; simpl; [eauto | | congruence].
  destruct (z0 <? z); simpl; eauto.
Qed.

Section Pruning.

Variable table : list (Z * Z).

Ltac both_return := do 4 eexists; split; reflexivity.

(** One level of the search without pruning. *)
Lemma negamax_full_fuel_unfold (fuel : nat) (board : Board) (depth : Z)
    (alpha beta : score) (player : Z) (cache : Cache) :
  negamax_full_fuel table (S fuel) board depth alpha beta player cache
  = if check_winner board (- player)
    then Some (Fin (-999999 + depth), None, board, cache)
    else
      if bool_decide (valid_actions_of board = [])
      then Some (Fin 0, None, board, cache)
      else if depth =? 0
      then Some (Fin (evaluate_board board player), None, board, cache)
      else
        match cache !! (compute_zobrist_hash table board, player, depth) with
        | Some (sc, mv) => Some (sc, mv, board, cache)
        | None =>
            let '(ordered_actions, board1) :=
              order_moves board (valid_actions_of board) player in
            match search_loop_full
                    (fun b a be ca =>
                       negamax_full_fuel table fuel b (depth - 1) a be (- player) ca)
                    ordered_actions alpha beta player NegInf None
                    board1 cache with
            | None => None
            | Some (best_score, best_move, board2, cache2) =>
                Some (best_score, best_move, board2,
                      <[(compute_zobrist_hash table board, player, depth)
                        := (best_score, best_move)]> cache2)
            end
        end.
Proof. reflexivity. Qed.

Lemma negamax_full_eq (board : Board) (depth : Z) (alpha beta : score)
    (player : Z) (cache : Cache) :
  negamax_full table board depth alpha beta player cache
  = negamax_full_fuel table (S (Z.to_nat depth)) board depth alpha beta
                      player cache.
Proof. unfold negamax_full. reflexivity. Qed.

(** At depth 0 both searches return the same number, whatever the window
    and the cache, and leave the cache alone. *)
Lemma negamax_leaf (fuel : nat) (board : Board) (alpha beta : score)
    (player : Z) (cache : Cache) :
  negamax_fuel table (S fuel) board 0 alpha beta player cache
  = Some (Fin (leaf_score board player), None, board, cache).
Proof.
  rewrite negamax_fuel_unfold. unfold leaf_score.
  destruct (check_winner board (- player)); [reflexivity|].
  case_bool_decide; reflexivity.
Qed.

Lemma negamax_full_leaf (fuel : nat) (board : Board) (alpha beta : score)
    (player : Z) (cache : Cache) :
  negamax_full_fuel table (S fuel) board 0 alpha beta player cache
  = Some (Fin (leaf_score board player), None, board, cache).
Proof.
  rewrite negamax_full_fuel_unfold. unfold leaf_score.
  destruct (check_winner board (- player)); [reflexivity|].
  case_bool_decide; reflexivity.
Qed.

(** *** The loop over calls that return a fixed number *)

Section PureCalls.

Variables rec_p rec_f : Board -> score -> score -> Cache -> option Result.
Variable val : Board -> Z.
Variables (beta : score) (player : Z).
Hypothesis rec_p_pure :
  ∀ b al be c, ∃ mv, rec_p b al be c = Some (Fin (val b), mv, b, c).
Hypothesis rec_f_pure :
  ∀ b al be c, ∃ mv, rec_f b al be c = Some (Fin (val b), mv, b, c).

Lemma full_loop_pure (board : Board) (actions : list Z) :
  wf_board board -> Forall (is_empty_cell board) actions ->
  ∀ alpha bs bm (c : Cache),
    bs ≠ PosInf ->
    ∃ bs_f bm_f,
      search_loop_full rec_f actions alpha beta player bs bm board c
      = Some (bs_f, bm_f, board, c)
      ∧ score_le bs bs_f
      ∧ (actions ≠ [] ∨ (∃ z, bs = Fin z) -> ∃ z, bs_f = Fin z).
Proof.
  intros Hwf Hall.
  induction Hall as [|a actions [Ha Hz] Hall IH]; intros alpha bs bm c Hbs.
  - exists bs, bm. split; [reflexivity|]. split; [apply score_le_refl|].
    intros [Hne | Hfin]; [congruence | exact Hfin].
  - cbn [search_loop_full].
    destruct (rec_f_pure (put board (a / SIZE) (a mod SIZE) player)
                (Score.neg beta) (Score.neg alpha) c) as [mv ->].
    rewrite put_undo by assumption.
    cbn [Score.neg].
    destruct (best_after_number bs bm (- val (put board (a / SIZE) (a mod SIZE) player))
                a Hbs) as [z' Hz'].
    destruct (if Score.ltb bs (Fin (- val (put board (a / SIZE) (a mod SIZE) player)))
              then (Fin (- val (put board (a / SIZE) (a mod SIZE) player)), Some a)
              else (bs, bm)) as [bs' bm'] eqn:Hupd.
    simpl in Hz'. subst bs'.
    destruct (IH (Score.max alpha (Fin (- val (put board (a / SIZE) (a mod SIZE) player))))
                (Fin z') bm' c ltac:(discriminate)) as (bs_f & bm_f & -> & Hle & Hfin).
    exists bs_f, bm_f. split; [reflexivity|]. split.
    + eapply score_le_trans; [|exact Hle].
      destruct (Score.ltb bs _) eqn:Hlt in Hupd; injection Hupd as Hupd _.
      * subst. unfold score_le. destruct bs; simpl in *; try congruence. lia.
      * subst. apply score_le_refl.
    + intros _. apply Hfin. right. eauto.
Qed.

Lemma loops_pure (board : Board) (actions : list Z) :
  wf_board board -> Forall (is_empty_cell board) actions ->
  ∀ bs bm (cp cf : Cache),
    bs ≠ PosInf ->
    ∃ bs_p bm_p bs_f bm_f,
      search_loop rec_p actions bs beta player bs bm board cp
      = Some (bs_p, bm_p, board, cp)
      ∧ search_loop_full rec_f actions bs beta player bs bm board cf
        = Some (bs_f, bm_f, board, cf)
      ∧ ((bs_p, bm_p) = (bs_f, bm_f)
         ∨ (score_le beta bs_p ∧ score_le bs_p bs_f))
      ∧ (actions ≠ [] ∨ (∃ z, bs = Fin z) ->
         (∃ z, bs_p = Fin z) ∧ ∃ z, bs_f = Fin z)
      ∧ bs_p ≠ PosInf.
Proof.
  intros Hwf Hall.
  induction Hall as [|a actions [Ha Hz] Hall IH]; intros bs bm cp cf Hbs.
  - exists bs, bm, bs, bm.
    split; [reflexivity|]. split; [reflexivity|]. split; [now left|].
    split; [|exact Hbs].
    intros [Hne | Hfin]; [congruence | split; exact Hfin].
  - cbn [search_loop search_loop_full].
    destruct (rec_p_pure (put board (a / SIZE) (a mod SIZE) player)
                (Score.neg beta) (Score.neg bs) cp) as [mvp ->].
    destruct (rec_f_pure (put board (a / SIZE) (a mod SIZE) player)
                (Score.neg beta) (Score.neg bs) cf) as [mvf ->].
    rewrite put_undo by assumption.
    cbn [Score.neg].
    set (sc := Fin (- val (put board (a / SIZE) (a mod SIZE) player))).
    rewrite (max_is_best bs sc bm a).
    destruct (best_after_number bs bm (- val (put board (a / SIZE) (a mod SIZE) player))
                a Hbs) as [z' Hz'].
    fold sc in Hz'.
    destruct (if Score.ltb bs sc then (sc, Some a) else (bs, bm)) as [bs' bm'].
    simpl in Hz'. subst bs'. cbn [fst].
    destruct (Score.geb (Fin z') beta) eqn:Hcut.
    + destruct (full_loop_pure board actions Hwf Hall (Fin z') (Fin z') bm' cf
                  ltac:(discriminate)) as (bs_f & bm_f & -> & Hle & Hfin).
      exists (Fin z'), bm', bs_f, bm_f.
      split; [reflexivity|]. split; [reflexivity|]. split.
      { right. split; [|exact Hle].
        unfold Score.geb in Hcut. apply negb_true_iff in Hcut. exact Hcut. }
      split; [|discriminate].
      intros _. split; [eauto|]. apply Hfin. right. eauto.
    + destruct (IH (Fin z') bm' cp cf ltac:(discriminate))
        as (bs_p & bm_p & bs_f & bm_f & -> & -> & Hrel & Hfin & Hnp).
      exists bs_p, bm_p, bs_f, bm_f.
      split; [reflexivity|]. split; [reflexivity|]. split; [exact Hrel|].
      split; [|exact Hnp].
      intros _. apply Hfin. right. eauto.
Qed.

End PureCalls.

(** *** One level above the leaves *)

Lemma answers_agree_mono (alpha alpha' : score) (p f : score * option Z) :
  score_le alpha alpha' -> answers_agree alpha p f -> answers_agree alpha' p f.
Proof.
  intros Hle (Hp & Hf & [Heq | [Hcut Hpf]]); repeat split; auto.
  right. split; [|exact Hpf].
  eapply score_le_trans; [apply score_neg_le, Hle | exact Hcut].
Qed.

Lemma caches_agree_mono (alpha alpha' : score) (cp cf : Cache) :
  score_le alpha alpha' -> caches_agree alpha cp cf -> caches_agree alpha' cp cf.
Proof.
  intros Hle HR k. specialize (HR k).
  destruct (cp !! k), (cf !! k); try exact HR.
  eapply answers_agree_mono; eauto.
Qed.

Lemma caches_agree_insert (alpha : score) (cp cf : Cache) (k : Z * Z * Z)
    (p f : score * option Z) :
  answers_agree alpha p f -> caches_agree alpha cp cf ->
  caches_agree alpha (<[k := p]> cp) (<[k := f]> cf).
Proof.
  intros Hpf HR k'. destruct (decide (k = k')) as [<- | Hne].
  - rewrite !lookup_insert_eq. exact Hpf.
  - rewrite !lookup_insert_ne by exact Hne. apply HR.
Qed.

Lemma caches_agree_empty (alpha : score) : caches_agree alpha ∅ ∅.
Proof. intros k. rewrite !lookup_empty. exact I. Qed.

Lemma answers_agree_same (alpha : score) (z : Z) (mv : option Z) :
  answers_agree alpha (Fin z, mv) (Fin z, mv).
Proof. repeat split; simpl; eauto. Qed.

(** A call at depth 1 from caches that agree: the two searches return
    answers that agree and leave caches that agree. *)
Lemma child_agree (fuel : nat) (b : Board) (alpha : score) (p : Z)
    (cp cf : Cache) :
  wf_board b -> caches_agree alpha cp cf ->
  ∃ ansp cp' ansf cf',
    negamax_fuel table (S (S fuel)) b 1 NegInf (Score.neg alpha) p cp
    = Some (ansp.1, ansp.2, b, cp')
    ∧ negamax_full_fuel table (S (S fuel)) b 1 NegInf (Score.neg alpha) p cf
      = Some (ansf.1, ansf.2, b, cf')
    ∧ caches_agree alpha cp' cf' ∧ answers_agree alpha ansp ansf.
Proof.
  intros Hwf HR. rewrite negamax_fuel_unfold, negamax_full_fuel_unfold.
  destruct (check_winner b (- p)).
  { exists (Fin (-999999 + 1), None), cp, (Fin (-999999 + 1), None), cf.
    repeat split; try assumption; simpl; eauto. }
  case_bool_decide as Hnil.
  { exists (Fin 0, None), cp, (Fin 0, None), cf.
    repeat split; try assumption; simpl; eauto. }
  change (1 =? 0) with false. cbv iota.
  pose proof (HR (compute_zobrist_hash table b, p, 1)) as Hk.
  destruct (cp !! (compute_zobrist_hash table b, p, 1)) as [[vp mp]|];
    destruct (cf !! (compute_zobrist_hash table b, p, 1)) as [[vf mf]|];
    try contradiction.
  { exists (vp, mp), cp, (vf, mf), cf. repeat split; try assumption; apply Hk. }
  destruct (order_moves_spec b p (valid_actions_of b) Hwf
              (valid_actions_empty b)) as (ordered & -> & Hperm).
  assert (Hall : Forall (is_empty_cell b) ordered)
    by (rewrite Hperm; apply valid_actions_empty).
  assert (Hne : ordered ≠ []).
  { intros ->. apply Permutation_nil_l in Hperm. congruence. }
  destruct (loops_pure
              (fun b a be ca => negamax_fuel table (S fuel) b (1 - 1) a be (- p) ca)
              (fun b a be ca => negamax_full_fuel table (S fuel) b (1 - 1) a be (- p) ca)
              (fun b => leaf_score b (- p)) (Score.neg alpha) p
              ltac:(intros; exists None; change (1 - 1) with 0; apply negamax_leaf)
              ltac:(intros; exists None; change (1 - 1) with 0; apply negamax_full_leaf)
              b ordered Hwf Hall NegInf None cp cf ltac:(discriminate))
    as (bs_p & bm_p & bs_f & bm_f & Hlp & Hlf & Hrel & Hfin & _).
  rewrite Hlp, Hlf.
  destruct (Hfin ltac:(left; exact Hne)) as [Hfp Hff].
  assert (Hans : answers_agree alpha (bs_p, bm_p) (bs_f, bm_f))
    by (repeat split; assumption).
  exists (bs_p, bm_p), (<[(compute_zobrist_hash table b, p, 1) := (bs_p, bm_p)]> cp),
         (bs_f, bm_f), (<[(compute_zobrist_hash table b, p, 1) := (bs_f, bm_f)]> cf).
  split; [reflexivity|]. split; [reflexivity|]. split; [|exact Hans].
  now apply caches_agree_insert.
Qed.

(** *** The root *)

Section RootLoop.

Variables rec_p rec_f : Board -> score -> score -> Cache -> option Result.
Variable player : Z.
Hypothesis calls_agree :
  ∀ b alpha cp cf,
    wf_board b -> caches_agree alpha cp cf ->
    ∃ ansp cp' ansf cf',
      rec_p b NegInf (Score.neg alpha) cp = Some (ansp.1, ansp.2, b, cp')
      ∧ rec_f b NegInf (Score.neg alpha) cf = Some (ansf.1, ansf.2, b, cf')
      ∧ caches_agree alpha cp' cf' ∧ answers_agree alpha ansp ansf.

Lemma root_loops (board : Board) (actions : list Z) :
  wf_board board -> Forall (is_empty_cell board) actions ->
  ∀ bs bm (cp cf : Cache),
    bs ≠ PosInf -> caches_agree bs cp cf ->
    ∃ bs' bm' cp' cf',
      search_loop rec_p actions bs PosInf player bs bm board cp
      = Some (bs', bm', board, cp')
      ∧ search_loop_full rec_f actions bs PosInf player bs bm board cf
        = Some (bs', bm', board, cf').
Proof.
  intros Hwf Hall.
  induction Hall as [|a actions [Ha Hz] Hall IH]; intros bs bm cp cf Hbs HR.
  - exists bs, bm, cp, cf. split; reflexivity.
  - cbn [search_loop search_loop_full].
    change (Score.neg PosInf) with NegInf.
    destruct (calls_agree (put board (a / SIZE) (a mod SIZE) player) bs cp cf
                ltac:(now apply put_wf) HR)
      as ([vp mp] & cp' & [vf mf] & cf' & -> & -> & HR' & (zp & Hzp) & (zf & Hzf) & Hrel).
    simpl in Hzp, Hzf. subst vp vf. cbn [fst snd] in *.
    rewrite put_undo by assumption.
    cbn [Score.neg].
    destruct Hrel as [[= <- <-] | [Hcut Hpf]].
    + pose proof (score_le_max bs (Fin (- zp))) as Hle.
      rewrite (max_is_best bs (Fin (- zp)) bm a) in Hle |- *.
      destruct (best_after_number bs bm (- zp) a Hbs) as [z' Hz'].
      destruct (if Score.ltb bs (Fin (- zp)) then (Fin (- zp), Some a) else (bs, bm))
        as [bs' bm'].
      cbn [fst] in *. subst bs'.
      change (Score.geb (Fin z') PosInf) with false. cbv iota.
      apply IH; [discriminate|].
      eapply caches_agree_mono; eauto.
    + assert (Hp : Score.ltb bs (Fin (- zp)) = false).
      { unfold score_le in *. destruct bs; simpl in *; try congruence. lia. }
      assert (Hf : Score.ltb bs (Fin (- zf)) = false).
      { unfold score_le in *. destruct bs; simpl in *; try congruence. lia. }
      unfold Score.max. rewrite Hp, Hf.
      replace (Score.geb bs PosInf) with false
        by (destruct bs; [reflexivity | reflexivity | congruence]).
      apply IH; assumption.
Qed.

End RootLoop.

(** C5: at depth 0, 1 and 2 the search and the search without the beta
    cutoff, both started with the full window and an empty cache, on a
    Zobrist table filled by [init_zobrist], return the same best score (and
    the same move). *)
Theorem pruning_equivalence (board : Board) (player depth : Z) :
  zobrist_table_ok table -> wf_board board -> 0 <= depth <= 2 ->
  ∃ sc mv cp cf,
    negamax table board depth NegInf PosInf player ∅ = Some (sc, mv, board, cp)
    ∧ negamax_full table board depth NegInf PosInf player ∅
      = Some (sc, mv, board, cf).
Proof.
  intros _ Hwf Hd. rewrite negamax_eq, negamax_full_eq.
  assert (Hcases : depth = 0 ∨ depth = 1 ∨ depth = 2) by lia.
  destruct Hcases as [-> | [-> | ->]].
  - change (Z.to_nat 0) with 0%nat. rewrite negamax_leaf, negamax_full_leaf. both_return.
  - change (Z.to_nat 1) with 1%nat.
    rewrite negamax_fuel_unfold, negamax_full_fuel_unfold.
    destruct (check_winner board (- player)); [both_return|].
    case_bool_decide as Hnil; [both_return|].
    change (1 =? 0) with false. cbv iota. rewrite lookup_empty.
    destruct (order_moves_spec board player (valid_actions_of board) Hwf
                (valid_actions_empty board)) as (ordered & -> & Hperm).
    assert (Hall : Forall (is_empty_cell board) ordered)
      by (rewrite Hperm; apply valid_actions_empty).
    destruct (loops_pure
                (fun b a be ca => negamax_fuel table 1 b (1 - 1) a be (- player) ca)
                (fun b a be ca => negamax_full_fuel table 1 b (1 - 1) a be (- player) ca)
                (fun b => leaf_score b (- player)) PosInf player
                ltac:(intros; exists None; change (1 - 1) with 0; apply negamax_leaf)
                ltac:(intros; exists None; change (1 - 1) with 0; apply negamax_full_leaf)
                board ordered Hwf Hall NegInf None ∅ ∅ ltac:(discriminate))
      as (bs_p & bm_p & bs_f & bm_f & -> & -> & Hrel & _ & Hnp).
    destruct Hrel as [[= <- <-] | [Hcut _]]; [both_return|].
    exfalso. unfold score_le in Hcut. destruct bs_p; simpl in Hcut; congruence.
  - change (Z.to_nat 2) with 2%nat.
    rewrite negamax_fuel_unfold, negamax_full_fuel_unfold.
    destruct (check_winner board (- player)); [both_return|].
    case_bool_decide as Hnil; [both_return|].
    change (2 =? 0) with false. cbv iota. rewrite lookup_empty.
    destruct (order_moves_spec board player (valid_actions_of board) Hwf
                (valid_actions_empty board)) as (ordered & -> & Hperm).
    assert (Hall : Forall (is_empty_cell board) ordered)
      by (rewrite Hperm; apply valid_actions_empty).
    destruct (root_loops
                (fun b a be ca => negamax_fuel table 2 b (2 - 1) a be (- player) ca)
                (fun b a be ca => negamax_full_fuel table 2 b (2 - 1) a be (- player) ca)
                player
                ltac:(intros b alpha cp cf Hb HR; change (2 - 1) with 1;
                      apply child_agree; assumption)
                board ordered Hwf Hall NegInf None ∅ ∅ ltac:(discriminate)
                (caches_agree_empty NegInf))
      as (bs' & bm' & cp' & cf' & -> & ->).
    both_return.
Qed.

End Pruning.

Lemma pruning_equivalence_witness :
  ∃ sc mv cp cf,
    negamax sample_table row0_chain3 2 NegInf PosInf 1 ∅
    = Some (sc, mv, row0_chain3, cp)
    ∧ negamax_full sample_table row0_chain3 2 NegInf PosInf 1 ∅
      = Some (sc, mv, row0_chain3, cf).
Proof.
  apply (pruning_equivalence sample_table row0_chain3 1 2).
  - sample_table_is_ok.
  - split; [reflexivity | repeat constructor].
  - lia.
Defined.

(** * Further properties of the code *)

(** ** Hex_utils.py: neighbours, coordinates, fresh boards *)

(** X1: on a board cell, [get_neighbors] returns, without repetition, at
    most six cells, and they are exactly the cells adjacent to it. *)
Theorem get_neighbors_exact (c : Z) :
  in_board c ->
  NoDup (get_neighbors c)
  ∧ (length (get_neighbors c) <= 6)%nat
  ∧ ∀ n, n ∈ get_neighbors c ↔ hex_adjacent c n.
Proof.
  intros Hc. split; [|split].
  - board_cases Hc; vm_compute; repeat constructor; set_solver.
  - apply get_neighbors_length.
  - intros n. apply elem_of_get_neighbors.
Qed.

Lemma get_neighbors_exact_witness :
  NoDup (get_neighbors 5)
  ∧ (length (get_neighbors 5) <= 6)%nat
  ∧ ∀ n, n ∈ get_neighbors 5 ↔ hex_adjacent 5 n.
Proof. apply (get_neighbors_exact 5). unfold in_board, SIZE. lia. Defined.

(** X2: adjacency as [get_neighbors] computes it is symmetric between
    board cells, and no cell is its own neighbour. *)
Theorem get_neighbors_symmetric (c n : Z) :
  in_board c ->
  (n ∈ get_neighbors c -> c ∈ get_neighbors n) ∧ c ∉ get_neighbors c.
Proof.
  intros Hc. split.
  - intros Hn. apply elem_of_get_neighbors in Hn as [Hn Hd].
    apply elem_of_get_neighbors. split; [exact Hc|].
    list_cases Hd;
      match goal with H : (_, _) = (_, _) |- _ => injection H as H1 H2 end;
      match goal with
      | |- (?x, ?y) ∈ _ =>
          first
            [ replace x with (-1) by lia; replace y with 0 by lia
            | replace x with 1 by lia; replace y with 0 by lia
            | replace x with 0 by lia; replace y with (-1) by lia
            | replace x with 0 by lia; replace y with 1 by lia
            | replace x with (-1) by lia; replace y with 1 by lia
            | replace x with 1 by lia; replace y with (-1) by lia ]
      end; set_solver.
  - intros [_ Hd]%elem_of_get_neighbors.
    rewrite !Z.sub_diag in Hd. list_cases Hd; discriminate.
Qed.

Lemma get_neighbors_symmetric_witness :
  (6 ∈ get_neighbors 5 -> 5 ∈ get_neighbors 6) ∧ 5 ∉ get_neighbors 5.
Proof. apply (get_neighbors_symmetric 5 6). unfold in_board, SIZE. lia. Defined.

(** X3: cell index and coordinates convert back and forth: index to
    (row, column) to index is the identity on every integer; (row, column) to
    index to (row, column) is the identity when the column is in range. *)
Theorem convert_round_trip (action row col : Z) :
  0 <= col < SIZE ->
  convert_to_action (convert_to_coordinates action).1
                    (convert_to_coordinates action).2 = action
  ∧ convert_to_coordinates (convert_to_action row col) = (row, col).
Proof.
  intros Hcol. unfold convert_to_action, convert_to_coordinates, SIZE in *.
  simpl. split.
  - Z.div_mod_to_equations. lia.
  - f_equal; Z.div_mod_to_equations; lia.
Qed.

Lemma convert_round_trip_witness :
  convert_to_action (convert_to_coordinates 13).1
                    (convert_to_coordinates 13).2 = 13
  ∧ convert_to_coordinates (convert_to_action 2 3) = (2, 3).
Proof. apply (convert_round_trip 13 2 3). unfold SIZE. lia. Defined.

(** A column index out of range does not survive the round trip. *)
Example convert_round_trip_needs_range :
  convert_to_coordinates (convert_to_action 1 4) = (2, 0).
Proof. reflexivity. Qed.

Lemma index_of_range (len : nat) (i : Z) :
  Py.index_of len i
  = if bool_decide (- Z.of_nat len <= i < Z.of_nat len)
    then Some (Z.to_nat (if bool_decide (0 <= i) then i else Z.of_nat len + i))
    else None.
Proof.
  unfold Py.index_of.
  repeat case_bool_decide; repeat case_match; try reflexivity; lia.
Qed.

(** X4: a fresh board of [size] rows reads 0 at every position, through
    indices from 0 up or from -1 down, and reading elsewhere raises
    IndexError; for SIZE it is a well-formed board. *)
Theorem initialize_board_cells (size r c : Z) :
  0 <= size ->
  board_get (initialize_board size) r c
  = (if bool_decide (- size <= r < size ∧ - size <= c < size)
     then Some 0 else None)
  ∧ wf_board (initialize_board SIZE).
Proof.
  intros Hsize. split; [|split; [reflexivity | repeat constructor]].
  unfold board_get, initialize_board, Py.getitem, Py.range.
  rewrite length_fmap, length_seqZ, index_of_range.
  rewrite Z2Nat.id by exact Hsize.
  destruct (decide (- size <= r < size)) as [Hr | Hr].
  2: { rewrite (bool_decide_eq_false_2 _ Hr).
       rewrite bool_decide_eq_false_2 by tauto. reflexivity. }
  rewrite (bool_decide_eq_true_2 _ Hr).
  set (i := Z.to_nat (if bool_decide (0 <= r) then r else size + r)).
  assert (Hlt : (i < Z.to_nat size)%nat) by (subst i; case_bool_decide; lia).
  rewrite list_lookup_fmap.
  destruct (lookup_lt_is_Some_2 (seqZ 0 size) i) as [x Hx];
    [rewrite length_seqZ; exact Hlt|].
  rewrite Hx. cbn [fmap option_fmap option_map].
  rewrite length_replicate, index_of_range.
  rewrite Z2Nat.id by exact Hsize.
  destruct (decide (- size <= c < size)) as [Hc | Hc].
  - rewrite (bool_decide_eq_true_2 _ Hc).
    rewrite lookup_replicate_2 by (case_bool_decide; lia).
    rewrite bool_decide_eq_true_2 by tauto. reflexivity.
  - rewrite (bool_decide_eq_false_2 _ Hc).
    rewrite bool_decide_eq_false_2 by tauto. reflexivity.
Qed.

Lemma initialize_board_cells_witness :
  board_get (initialize_board 4) (-1) 3
  = (if bool_decide (- 4 <= -1 < 4 ∧ - 4 <= 3 < 4) then Some 0 else None)
  ∧ wf_board (initialize_board SIZE).
Proof. apply (initialize_board_cells 4 (-1) 3). lia. Defined.

(** ** Hex_ai.py: move ordering *)

Lemma order_moves_fold_scores (board : Board) (player : Z) (actions : list Z)
    (scored : list (Z * Z)) :
  wf_board board -> Forall (is_empty_cell board) actions ->
  fold_left (order_moves_step player) actions (scored, board)
  = (scored ++ ((fun a => (a, move_score board player a)) <$> actions), board).
Proof.
  intros Hwf Hall. revert scored.
  induction Hall as [|a actions [Ha Hz] _ IH]; intros scored; cbn [fold_left].
  - now rewrite app_nil_r.
  - unfold order_moves_step at 2. rewrite put_undo by assumption.
    rewrite IH, <- app_assoc. reflexivity.
Qed.

Lemma insert_desc_sorted (x : Z * Z) (l : list (Z * Z)) :
  StronglySorted (fun x y => y.2 <= x.2) l ->
  StronglySorted (fun x y => y.2 <= x.2) (insert_desc x l).
Proof.
  induction 1 as [|y l Hs IH Hy]; simpl.
  - repeat constructor.
  - destruct (Z.ltb_spec x.2 y.2) as [Hlt | Hge].
    + constructor; [exact IH|].
      rewrite insert_desc_perm. constructor; [lia | exact Hy].
    + constructor; [constructor; assumption|].
      constructor; [exact Hge|].
      eapply Forall_impl; [exact Hy|]. simpl. intros z Hz. lia.
Qed.

Lemma sort_desc_sorted (l : list (Z * Z)) :
  StronglySorted (fun x y => y.2 <= x.2) (sort_desc l).
Proof.
  induction l as [|x l IH]; simpl; [constructor | now apply insert_desc_sorted].
Qed.

(** The sort is stable: the entries of any one score keep their order. *)
Lemma insert_desc_stable (s : Z) (x : Z * Z) (l : list (Z * Z)) :
  filter (fun y => y.2 = s) (insert_desc x l) = filter (fun y => y.2 = s) (x :: l).
Proof.
  induction l as [|y l IH]; simpl; [reflexivity|].
  destruct (Z.ltb_spec x.2 y.2) as [Hlt | Hge]; [|reflexivity].
  rewrite filter_cons, IH, !filter_cons.
  repeat case_decide; try reflexivity. lia.
Qed.

Lemma sort_desc_stable (s : Z) (l : list (Z * Z)) :
  filter (fun y => y.2 = s) (sort_desc l) = filter (fun y => y.2 = s) l.
Proof.
  induction l as [|x l IH]; simpl; [reflexivity|].
  rewrite insert_desc_stable, !filter_cons, IH. reflexivity.
Qed.

Lemma scored_fst_sorted (f : Z -> Z) (l : list (Z * Z)) :
  Forall (fun x => x.2 = f x.1) l ->
  StronglySorted (fun x y => y.2 <= x.2) l ->
  StronglySorted (fun a a' => f a' <= f a) (l.*1).
Proof.
  intros Hf Hs. induction Hs as [|x l Hs IH Hx]; simpl; [constructor|].
  apply Forall_cons in Hf as [Hfx Hf].
  constructor; [now apply IH|].
  apply Forall_fmap. apply Forall_forall. intros y Hy. simpl.
  rewrite Forall_forall in Hx, Hf.
  rewrite <- Hfx, <- (Hf y Hy). now apply Hx.
Qed.

Lemma scored_fst_filter (f : Z -> Z) (s : Z) (l : list (Z * Z)) :
  Forall (fun x => x.2 = f x.1) l ->
  (filter (fun x => x.2 = s) l).*1 = filter (fun a => f a = s) (l.*1).
Proof.
  induction 1 as [|x l Hx _ IH]; [reflexivity|].
  rewrite fmap_cons, !filter_cons.
  repeat case_decide; try congruence;
    rewrite ?fmap_cons, IH; reflexivity.
Qed.

(** X5: [order_moves] hands the board back as it got it and returns the
    moves it was given, each once, by non-increasing score; moves of equal
    score keep the order in which they were given. *)
Theorem order_moves_sorted (board : Board) (player : Z) (actions : list Z) :
  wf_board board -> Forall (is_empty_cell board) actions ->
  ∃ ordered,
    order_moves board actions player = (ordered, board)
    ∧ ordered ≡ₚ actions
    ∧ StronglySorted
        (fun a a' => move_score board player a' <= move_score board player a)
        ordered
    ∧ ∀ s, filter (fun a => move_score board player a = s) ordered
           = filter (fun a => move_score board player a = s) actions.
Proof.
  intros Hwf Hall. unfold order_moves.
  rewrite order_moves_fold_scores by assumption.
  cbn [app].
  set (scored := (fun a => (a, move_score board player a)) <$> actions).
  assert (Hfst : scored.*1 = actions).
  { subst scored. rewrite <- list_fmap_compose. apply list_fmap_id. }
  assert (Hsc : Forall (fun x => x.2 = move_score board player x.1) scored).
  { subst scored. apply Forall_fmap, Forall_forall. intros a _. reflexivity. }
  assert (Hsc' : Forall (fun x => x.2 = move_score board player x.1) (sort_desc scored))
    by now rewrite sort_desc_perm.
  eexists. split; [reflexivity|]. split; [|split].
  - rewrite sort_desc_perm. now rewrite Hfst.
  - apply scored_fst_sorted; [exact Hsc' | apply sort_desc_sorted].
  - intros s.
    rewrite <- (scored_fst_filter _ s _ Hsc'), sort_desc_stable.
    rewrite (scored_fst_filter _ s _ Hsc), Hfst. reflexivity.
Qed.

Lemma order_moves_sorted_witness :
  ∃ ordered,
    order_moves row0_chain3 [4; 3; 9] (-1) = (ordered, row0_chain3)
    ∧ ordered ≡ₚ [4; 3; 9]
    ∧ StronglySorted
        (fun a a' => move_score row0_chain3 (-1) a' <= move_score row0_chain3 (-1) a)
        ordered
    ∧ ∀ s, filter (fun a => move_score row0_chain3 (-1) a = s) ordered
           = filter (fun a => move_score row0_chain3 (-1) a = s) [4; 3; 9].
Proof.
  apply (order_moves_sorted row0_chain3 (-1) [4; 3; 9]).
  - split; [reflexivity | repeat constructor].
  - repeat (constructor; [split; [unfold in_board, SIZE; lia | reflexivity]|]).
    constructor.
Defined.

(** The winning move comes first. *)
Example order_moves_row0 :
  order_moves row0_chain3 [4; 3; 9] (-1) = ([3; 4; 9], row0_chain3).
Proof. vm_compute. reflexivity. Qed.

(** ** Hex_ai.py: the shortest path search finds exactly the connections *)

Section BfsLoop.

Variables (board : Board) (value : Z).
Variable is_goal : Z -> bool.
Variable is_start : Z -> Prop.

Let from_start (c : Z) : Prop := ∃ s, is_start s ∧ chain board value s c.

Lemma spl_visit_fold_spec (dist : Z) (l : list Z) (visited : gset Z)
    (queue : list (Z * Z)) :
  ∃ visited' queue',
    fold_left (spl_visit board value dist) l (visited, queue) = (visited', queue')
    ∧ (∀ x, x ∈ visited -> x ∈ visited')
    ∧ (∀ x, x ∈ visited' ->
            x ∈ visited
            ∨ (x ∈ l ∧ cell board (x / SIZE) (x mod SIZE) = value ∧ x ∈ queue'.*1))
    ∧ (∀ x, x ∈ l -> cell board (x / SIZE) (x mod SIZE) = value -> x ∈ visited')
    ∧ (∀ cd, cd ∈ queue -> cd ∈ queue')
    ∧ (∀ c d, (c, d) ∈ queue' ->
              (c, d) ∈ queue
              ∨ (c ∈ l ∧ cell board (c / SIZE) (c mod SIZE) = value ∧ c ∈ visited')).
Proof.
  revert visited queue.
  induction l as [|n l IH]; intros visited queue; cbn [fold_left].
  - exists visited, queue. split; [reflexivity|]. repeat split; auto.
    intros x Hx. inversion Hx.
  - rewrite spl_visit_eq.
    destruct (Z.eqb_spec (cell board (n / SIZE) (n mod SIZE)) value) as [Hv | Hv];
      [case_bool_decide as Hvis|]; cbn [andb negb].
    + destruct (IH visited queue) as (v' & q' & -> & H1 & H2 & H3 & H4 & H5).
      exists v', q'. split; [reflexivity|]. repeat split; auto.
      * intros x Hx. destruct (H2 x Hx) as [? | (? & ? & ?)]; [auto|].
        right. repeat split; auto. now right.
      * intros x [-> | Hx]%elem_of_cons Hc; auto.
      * intros c d Hcd. destruct (H5 c d Hcd) as [? | (? & ? & ?)]; [auto|].
        right. repeat split; auto. now right.
    + destruct (IH (visited ∪ {[n]}) (queue ++ [(n, dist + 1)]))
        as (v' & q' & -> & H1 & H2 & H3 & H4 & H5).
      assert (Hnq : (n, dist + 1) ∈ q') by (apply H4; set_solver).
      assert (Hnv : n ∈ v') by (apply H1; set_solver).
      exists v', q'. split; [reflexivity|]. repeat split.
      * intros x Hx. apply H1. set_solver.
      * intros x Hx. destruct (H2 x Hx) as [[? | ->%elem_of_singleton]%elem_of_union | (? & ? & ?)].
        -- auto.
        -- right. repeat split; [left | exact Hv |].
           apply list_elem_of_fmap. exists (n, dist + 1). auto.
        -- right. repeat split; auto. now right.
      * intros x [-> | Hx]%elem_of_cons Hc; auto.
      * intros cd Hcd. apply H4. set_solver.
      * intros c d Hcd.
        destruct (H5 c d Hcd) as [[? | [= -> ->]%list_elem_of_singleton]%elem_of_app | (? & ? & ?)].
        -- auto.
        -- right. repeat split; [left | exact Hv | exact Hnv].
        -- right. repeat split; auto. now right.
    + destruct (IH visited queue) as (v' & q' & -> & H1 & H2 & H3 & H4 & H5).
      exists v', q'. split; [reflexivity|]. repeat split; auto.
      * intros x Hx. destruct (H2 x Hx) as [? | (? & ? & ?)]; [auto|].
        right. repeat split; auto. now right.
      * intros x [-> | Hx]%elem_of_cons Hc; [contradiction | auto].
      * intros c d Hcd. destruct (H5 c d Hcd) as [? | (? & ? & ?)]; [auto|].
        right. repeat split; auto. now right.
Qed.

(** What the loop keeps true: queued and visited cells are joined to a start
    cell; start cells are visited; a visited cell that is no longer queued is
    no goal, and its stone neighbours are visited. *)
Record bfs_inv (queue : list (Z * Z)) (visited : gset Z) : Prop := {
  bfs_queue : ∀ c d, (c, d) ∈ queue -> from_start c ∧ c ∈ visited;
  bfs_start : ∀ s, is_start s -> s ∈ visited;
  bfs_visited : ∀ v, v ∈ visited -> from_start v;
  bfs_done : ∀ v, v ∈ visited -> v ∉ queue.*1 ->
                  is_goal v = false
                  ∧ ∀ n, hex_adjacent v n -> owned board value n -> n ∈ visited
}.

Lemma bfs_inv_all_visited (visited : gset Z) (c : Z) :
  bfs_inv [] visited -> from_start c -> c ∈ visited.
Proof.
  intros Hinv (s & Hs & Hch).
  induction Hch as [a Ha | a b c Hab IH Hadj Hc].
  - now apply (bfs_start _ _ Hinv).
  - eapply (bfs_done _ _ Hinv b); eauto. intros H. inversion H.
Qed.

Lemma spl_loop_spec (fuel : nat) (queue : list (Z * Z)) (visited : gset Z) :
  bfs_inv queue visited ->
  (size (all_cells ∖ visited) + length queue < fuel)%nat ->
  ∃ r, spl_loop fuel board value is_goal queue visited = Some r
       ∧ ((∃ d, r = Some d) ↔ ∃ g, is_goal g = true ∧ from_start g).
Proof.
  revert queue visited.
  induction fuel as [|fuel IH]; intros queue visited Hinv Hfuel; [lia|].
  destruct queue as [|[current dist] queue]; cbn [spl_loop].
  - exists None. split; [reflexivity|]. split; [intros [d Hd]; discriminate|].
    intros (g & Hg & Hfrom). exfalso.
    pose proof (bfs_inv_all_visited _ _ Hinv Hfrom) as Hv.
    destruct (bfs_done _ _ Hinv g Hv) as [Hng _]; [intros H; inversion H|].
    congruence.
  - destruct (is_goal current) eqn:Hgoal.
    { exists (Some dist). split; [reflexivity|]. split; [|eauto].
      intros _. exists current. split; [exact Hgoal|].
      apply (bfs_queue _ _ Hinv current dist). left. }
    destruct (bfs_queue _ _ Hinv current dist ltac:(left)) as [Hcur Hcurv].
    destruct (spl_visit_fold board value dist (get_neighbors current) visited queue)
      as (v0 & q0 & Hfold0 & Hsize & _).
    { apply Forall_forall. intros n. apply get_neighbors_in_board. }
    destruct (spl_visit_fold_spec dist (get_neighbors current) visited queue)
      as (v' & q' & Hfold & H1 & H2 & H3 & H4 & H5).
    rewrite Hfold in Hfold0. injection Hfold0 as <- <-.
    rewrite Hfold. apply IH; [|simpl in Hfuel; lia].
    assert (Hnew : ∀ n, n ∈ get_neighbors current ->
                        cell board (n / SIZE) (n mod SIZE) = value -> from_start n).
    { intros n Hn Hv. destruct Hcur as (s & Hs & Hch). exists s. split; [exact Hs|].
      eapply chain_step; [exact Hch | now apply elem_of_get_neighbors |].
      split; [eapply get_neighbors_in_board; eauto | exact Hv]. }
    destruct Hinv as [I1 I2 I3 I4]. split.
    + intros c d Hcd. destruct (H5 c d Hcd) as [Hq | (Hn & Hv & Hcv)].
      * destruct (I1 c d ltac:(now right)) as [? ?]. auto.
      * auto.
    + intros s Hs. auto.
    + intros v Hv. destruct (H2 v Hv) as [? | (Hn & Hc & _)]; auto.
    + intros v Hv Hnq.
      assert (Hold : v ∈ visited).
      { destruct (H2 v Hv) as [? | (_ & _ & Hq)]; [assumption | contradiction]. }
      destruct (decide (v = current)) as [-> | Hne].
      * split; [exact Hgoal|]. intros n Hadj [_ Hn].
        apply H3; [now apply elem_of_get_neighbors | exact Hn].
      * destruct (I4 v Hold) as [Hg Hcl].
        { intros Hin. apply Hnq.
          apply list_elem_of_fmap in Hin as ([c d] & -> & Hcd).
          apply elem_of_cons in Hcd as [[= -> ->] | Hcd]; [contradiction|].
          apply list_elem_of_fmap. exists (c, d). auto. }
        split; [exact Hg|]. intros n Hadj Hn. apply H1. eauto.
Qed.

End BfsLoop.

Lemma spl_init_fold_spec (starts : list Z) (visited : gset Z) (queue : list (Z * Z)) :
  ∃ visited',
    fold_left (fun '(visited, queue) s => (visited ∪ {[s]}, queue ++ [(s, 0)]))
              starts (visited, queue)
    = (visited', queue ++ ((fun s => (s, 0)) <$> starts))
    ∧ ∀ x, x ∈ visited' ↔ x ∈ visited ∨ x ∈ starts.
Proof.
  revert visited queue.
  induction starts as [|s starts IH]; intros visited queue; cbn [fold_left].
  - exists visited. rewrite app_nil_r. split; [reflexivity|]. set_solver.
  - destruct (IH (visited ∪ {[s]}) (queue ++ [(s, 0)])) as (v' & -> & Hv).
    exists v'. rewrite <- app_assoc. split; [reflexivity|].
    intros x. rewrite Hv. set_solver.
Qed.

Lemma elem_of_spl_starts (board : Board) (player s : Z) :
  wf_board board -> player = 1 ∨ player = -1 ->
  s ∈ spl_starts board player player
  ↔ owned board player s ∧ on_start_edge player s.
Proof.
  intros Hwf Hp. explicit_board Hwf.
  unfold spl_starts, owned, on_start_edge.
  destruct Hp as [-> | ->]; simpl (_ =? _); cbv iota.
  - rewrite list_elem_of_filter.
    change (Py.range SIZE) with [0; 1; 2; 3].
    split.
    + intros [Hv Hin]. list_cases Hin;
        (split; [split; [unfold in_board, SIZE; lia | exact Hv] | reflexivity]).
    + intros [[Hin Hv] He]. board_cases Hin; try discriminate He;
        (split; [exact Hv | set_solver]).
  - rewrite list_elem_of_fmap.
    change (Py.range SIZE) with [0; 1; 2; 3].
    split.
    + intros (r & -> & [Hv Hin]%list_elem_of_filter). list_cases Hin;
        (split; [split; [unfold in_board, SIZE; lia | exact Hv] | reflexivity]).
    + intros [[Hin Hv] He]. board_cases Hin; try discriminate He.
      * exists 0. split; [reflexivity|]. apply list_elem_of_filter. split; [exact Hv | set_solver].
      * exists 1. split; [reflexivity|]. apply list_elem_of_filter. split; [exact Hv | set_solver].
      * exists 2. split; [reflexivity|]. apply list_elem_of_filter. split; [exact Hv | set_solver].
      * exists 3. split; [reflexivity|]. apply list_elem_of_filter. split; [exact Hv | set_solver].
Qed.

Lemma spl_is_goal_edge (player g : Z) :
  spl_is_goal player g = true ↔ on_goal_edge player g.
Proof.
  unfold spl_is_goal, on_goal_edge. destruct (player =? 1); apply Z.eqb_eq.
Qed.

(** The search returns a distance exactly when the player is connected. *)
Lemma shortest_path_length_connected (board : Board) (player : Z) :
  wf_board board -> player = 1 ∨ player = -1 ->
  (∃ d, shortest_path_length board player = Some d) ↔ connected board player.
Proof.
  intros Hwf Hp. unfold shortest_path_length.
  replace (if player =? 1 then 1 else -1) with player
    by (destruct Hp as [-> | ->]; reflexivity).
  unfold spl_init.
  destruct (spl_init_fold_spec (spl_starts board player player) ∅ [])
    as (visited & -> & Hvis).
  cbn [app].
  destruct (spl_loop_spec board player (spl_is_goal player)
              (fun s => s ∈ spl_starts board player player)
              spl_fuel ((fun s => (s, 0)) <$> spl_starts board player player)
              visited) as (r & -> & Hr).
  - split.
    + intros c d (s & [= -> ->] & Hs)%list_elem_of_fmap. split.
      * exists s. split; [exact Hs|]. apply chain_one.
        now apply elem_of_spl_starts in Hs as [Hs _].
      * apply Hvis. now right.
    + intros s Hs. apply Hvis. now right.
    + intros v [Hv | Hv]%Hvis; [set_solver|].
      exists v. split; [exact Hv|]. apply chain_one.
      now apply elem_of_spl_starts in Hv as [Hv _].
    + intros v [Hv | Hv]%Hvis Hnq; [set_solver|].
      exfalso. apply Hnq. rewrite <- list_fmap_compose.
      apply list_elem_of_fmap. exists v. auto.
  - pose proof (unvisited_bound visited).
    pose proof (spl_starts_length board player player).
    rewrite length_fmap. unfold spl_fuel. lia.
  - rewrite Hr. split.
    + intros (g & Hg & s & Hs & Hch). exists s, g.
      apply elem_of_spl_starts in Hs as [_ Hs]; [|assumption..].
      apply spl_is_goal_edge in Hg. auto.
    + intros (s & g & Hs & Hg & Hch). exists g. split; [now apply spl_is_goal_edge|].
      exists s. split; [|exact Hch].
      apply elem_of_spl_starts; eauto using chain_owned_l.
Qed.

(** X6: [shortest_path_length] returns a distance exactly when the stones
    of the player already join the two edges, that is exactly when
    [check_winner] says the player has won; otherwise it returns None. *)
Theorem shortest_path_length_iff_winner (board : Board) (player : Z) :
  wf_board board -> player = 1 ∨ player = -1 ->
  ((∃ d, shortest_path_length board player = Some d) ↔ connected board player)
  ∧ (shortest_path_length board player = None
     ↔ check_winner board player = false).
Proof.
  intros Hwf Hp.
  pose proof (shortest_path_length_connected board player Hwf Hp) as Hspl.
  split; [exact Hspl|].
  destruct (check_winner_connected board player Hwf Hp) as (b & Hb & Hiff).
  assert (Hcw : check_winner board player = b).
  { unfold check_winner.
    replace (if player =? 1 then 1 else -1) with player
      by (destruct Hp as [-> | ->]; reflexivity).
    rewrite Hb. reflexivity. }
  rewrite Hcw. split.
  - intros Hnone. destruct b; [|reflexivity].
    destruct (proj2 Hspl (proj1 Hiff eq_refl)) as [d Hd]. congruence.
  - intros ->. destruct (shortest_path_length board player) as [d|] eqn:Hd;
      [|reflexivity].
    assert (Hc : connected board player) by (apply Hspl; eauto).
    apply Hiff in Hc. discriminate.
Qed.

Lemma shortest_path_length_iff_winner_witness :
  ((∃ d, shortest_path_length row0_chain3 (-1) = Some d)
   ↔ connected row0_chain3 (-1))
  ∧ (shortest_path_length row0_chain3 (-1) = None
     ↔ check_winner row0_chain3 (-1) = false).
Proof.
  apply (shortest_path_length_iff_winner row0_chain3 (-1)).
  - split; [reflexivity | repeat constructor].
  - right. reflexivity.
Defined.

(** X7: the heuristic sees decided connections only: it is 0 on every
    board where neither player has won, 9999 when only the player has, and
    -9999 when only the opponent has. *)
Theorem evaluate_board_undecided (board : Board) (player : Z) :
  wf_board board -> player = 1 ∨ player = -1 ->
  (check_winner board player = false -> check_winner board (- player) = false ->
   evaluate_board board player = 0)
  ∧ (check_winner board player = true -> check_winner board (- player) = false ->
     evaluate_board board player = 9999)
  ∧ (check_winner board player = false -> check_winner board (- player) = true ->
     evaluate_board board player = -9999).
Proof.
  intros Hwf Hp.
  assert (Hp' : - player = 1 ∨ - player = -1) by lia.
  pose proof (shortest_path_length_connected board player Hwf Hp) as Hs.
  pose proof (shortest_path_length_connected board (- player) Hwf Hp') as Ho.
  destruct (check_winner_connected board player Hwf Hp) as (b & Hb & Hiff).
  destruct (check_winner_connected board (- player) Hwf Hp') as (b' & Hb' & Hiff').
  assert (Hcw : check_winner board player = b).
  { unfold check_winner.
    replace (if player =? 1 then 1 else -1) with player
      by (destruct Hp as [-> | ->]; reflexivity).
    rewrite Hb. reflexivity. }
  assert (Hcw' : check_winner board (- player) = b').
  { unfold check_winner.
    replace (if - player =? 1 then 1 else -1) with (- player)
      by (destruct Hp as [-> | ->]; reflexivity).
    rewrite Hb'. reflexivity. }
  rewrite Hcw, Hcw'. unfold evaluate_board.
  destruct (shortest_path_length board player) as [d|] eqn:Hd;
    destruct (shortest_path_length board (- player)) as [d'|] eqn:Hd'.
  - assert (b = true) by (apply Hiff, Hs; eauto).
    assert (b' = true) by (apply Hiff', Ho; eauto).
    repeat split; congruence.
  - assert (b = true) by (apply Hiff, Hs; eauto).
    repeat split; congruence.
  - assert (b' = true) by (apply Hiff', Ho; eauto).
    repeat split; congruence.
  - repeat split; try reflexivity.
    + intros ->. destruct (proj2 Hs (proj1 Hiff eq_refl)) as [? ?]. discriminate.
    + intros _ ->. destruct (proj2 Ho (proj1 Hiff' eq_refl)) as [? ?]. discriminate.
Qed.

Lemma evaluate_board_undecided_witness :
  (check_winner row0_chain3 1 = false -> check_winner row0_chain3 (- 1) = false ->
   evaluate_board row0_chain3 1 = 0)
  ∧ (check_winner row0_chain3 1 = true -> check_winner row0_chain3 (- 1) = false ->
     evaluate_board row0_chain3 1 = 9999)
  ∧ (check_winner row0_chain3 1 = false -> check_winner row0_chain3 (- 1) = true ->
     evaluate_board row0_chain3 1 = -9999).
Proof.
  apply (evaluate_board_undecided row0_chain3 1).
  - split; [reflexivity | repeat constructor].
  - left. reflexivity.
Defined.

(** ** Hex_ai.py: the transposition cache *)

Section CacheProofs.

Variable table : list (Z * Z).

(** The loop hands on a cache that holds everything the cache it got held,
    when every recursive call does; new keys carry a depth of at most [dmax]. *)
Lemma search_loop_cache
    (rec : Board -> score -> score -> Cache -> option Result) (dmax : Z)
    (actions : list Z) (beta : score) (player : Z) :
  (∀ b a be (ca : Cache) sc mv b1 (c1 : Cache),
      rec b a be ca = Some (sc, mv, b1, c1) ->
      ca ⊆ c1 ∧ ∀ k, is_Some (c1 !! k) -> is_Some (ca !! k) ∨ k.2 <= dmax) ->
  ∀ alpha bs bm board (cache : Cache) bs' bm' b' (c' : Cache),
    search_loop rec actions alpha beta player bs bm board cache
    = Some (bs', bm', b', c') ->
    cache ⊆ c' ∧ ∀ k, is_Some (c' !! k) -> is_Some (cache !! k) ∨ k.2 <= dmax.
Proof.
  intros Hrec.
  induction actions as [|a actions IH];
    intros alpha bs bm board cache bs' bm' b' c' Hloop; cbn [search_loop] in Hloop.
  - injection Hloop as _ _ _ <-. split; [reflexivity | auto].
  - destruct (rec (put board (a / SIZE) (a mod SIZE) player)
                  (Score.neg beta) (Score.neg alpha) cache)
      as [[[[sc mv] b1] c1]|] eqn:Hcall; [|discriminate].
    apply Hrec in Hcall as [Hsub Hnew].
    destruct (Score.ltb bs (Score.neg sc));
      destruct (Score.geb (Score.max alpha (Score.neg sc)) beta);
      try (injection Hloop as _ _ _ <-; split; assumption);
      apply IH in Hloop as [Hsub' Hnew'];
      (split; [etransitivity; eassumption|]);
      intros k Hk; destruct (Hnew' k Hk) as [Hk1 | ?]; auto.
Qed.

Lemma negamax_fuel_cache (fuel : nat) :
  ∀ board depth alpha beta player (cache : Cache) sc mv b' (c' : Cache),
    negamax_fuel table fuel board depth alpha beta player cache
    = Some (sc, mv, b', c') ->
    cache ⊆ c' ∧ ∀ k, is_Some (c' !! k) -> is_Some (cache !! k) ∨ k.2 <= depth.
Proof.
  induction fuel as [|fuel IH];
    intros board depth alpha beta player cache sc mv b' c' Hcall; [discriminate|].
  rewrite negamax_fuel_unfold in Hcall.
  destruct (check_winner board (- player));
    [injection Hcall as _ _ _ <-; split; [reflexivity | auto]|].
  case_bool_decide; [injection Hcall as _ _ _ <-; split; [reflexivity | auto]|].
  destruct (depth =? 0); [injection Hcall as _ _ _ <-; split; [reflexivity | auto]|].
  destruct (cache !! (compute_zobrist_hash table board, player, depth))
    as [[sc0 mv0]|] eqn:Hmiss;
    [injection Hcall as _ _ _ <-; split; [reflexivity | auto]|].
  destruct (order_moves board (valid_actions_of board) player) as [ordered b0].
  destruct (search_loop _ ordered alpha beta player NegInf None b0 cache)
    as [[[[bs bm] b1] c1]|] eqn:Hloop; [|discriminate].
  injection Hcall as _ _ _ <-.
  eapply (search_loop_cache _ (depth - 1)) in Hloop as [Hsub Hnew].
  2: { intros b a be ca sc1 mv1 b2 c2 Hrec. apply IH in Hrec. exact Hrec. }
  assert (Hfree : c1 !! (compute_zobrist_hash table board, player, depth) = None).
  { destruct (c1 !! (compute_zobrist_hash table board, player, depth)) eqn:Hk;
      [|reflexivity].
    destruct (Hnew (compute_zobrist_hash table board, player, depth)) as [Hc | Hd];
      [eauto | rewrite Hmiss in Hc; now destruct Hc | simpl in Hd; lia]. }
  split.
  - etransitivity; [exact Hsub|]. now apply insert_subseteq.
  - intros k Hk. destruct (decide (k = (compute_zobrist_hash table board, player, depth)))
      as [-> | Hne].
    + right. simpl. lia.
    + rewrite lookup_insert_ne in Hk by congruence.
      destruct (Hnew k Hk) as [? | ?]; [auto | right; lia].
Qed.

(** X8: a search, on a Zobrist table filled by [init_zobrist], never
    changes or drops an entry of the cache it was given: every key of the old
    cache is in the returned cache with the same value; the keys it adds
    carry a depth of at most the depth searched. *)
Theorem negamax_cache_grows (board : Board) (depth : Z) (alpha beta : score)
    (player : Z) (cache : Cache) :
  zobrist_table_ok table -> wf_board board -> 0 <= depth ->
  ∃ sc mv (c' : Cache),
    negamax table board depth alpha beta player cache = Some (sc, mv, board, c')
    ∧ (∀ k v, cache !! k = Some v -> c' !! k = Some v)
    ∧ (∀ k, is_Some (c' !! k) -> is_Some (cache !! k) ∨ k.2 <= depth).
Proof.
  intros _ Hwf Hd.
  destruct (negamax_total table board depth alpha beta player cache Hwf Hd)
    as (sc & mv & c' & Hcall).
  exists sc, mv, c'. split; [exact Hcall|].
  rewrite negamax_eq in Hcall.
  apply negamax_fuel_cache in Hcall as [Hsub Hnew].
  split; [|exact Hnew].
  intros k v Hk. eapply lookup_weaken; eauto.
Qed.

(** X9: a search repeated on the cache it left, with the same Zobrist
    table filled by [init_zobrist], returns the same score and move, whatever
    the window of the second call, and leaves that cache as it is. *)
Theorem negamax_repeat (board : Board) (depth : Z) (alpha beta : score)
    (player : Z) (cache : Cache) :
  zobrist_table_ok table -> wf_board board -> 0 <= depth ->
  ∃ sc mv (c' : Cache),
    negamax table board depth alpha beta player cache = Some (sc, mv, board, c')
    ∧ ∀ alpha' beta',
        negamax table board depth alpha' beta' player c' = Some (sc, mv, board, c').
Proof.
  intros _ Hwf Hd.
  destruct (negamax_total table board depth alpha beta player cache Hwf Hd)
    as (sc & mv & c' & Hcall).
  exists sc, mv, c'. split; [exact Hcall|].
  intros alpha' beta'. rewrite negamax_eq in Hcall |- *.
  rewrite negamax_fuel_unfold in Hcall |- *.
  destruct (check_winner board (- player));
    [injection Hcall as <- <- <-; reflexivity|].
  case_bool_decide; [injection Hcall as <- <- <-; reflexivity|].
  destruct (depth =? 0); [injection Hcall as <- <- <-; reflexivity|].
  destruct (cache !! (compute_zobrist_hash table board, player, depth))
    as [[sc0 mv0]|] eqn:Hhit.
  - injection Hcall as <- <- <-. rewrite Hhit. reflexivity.
  - destruct (order_moves board (valid_actions_of board) player) as [ordered b0].
    destruct (search_loop _ ordered alpha beta player NegInf None b0 cache)
      as [[[[bs bm] b1] c1]|]; [|discriminate].
    injection Hcall as <- <- _ <-.
    rewrite lookup_insert_eq. reflexivity.
Qed.

End CacheProofs.

Lemma negamax_cache_grows_witness :
  ∃ sc mv (c' : Cache),
    negamax sample_table row0_chain3 2 NegInf PosInf 1 ∅
    = Some (sc, mv, row0_chain3, c')
    ∧ (∀ k v, (∅ : Cache) !! k = Some v -> c' !! k = Some v)
    ∧ (∀ k, is_Some (c' !! k) -> is_Some ((∅ : Cache) !! k) ∨ k.2 <= 2).
Proof.
  apply (negamax_cache_grows sample_table row0_chain3 2 NegInf PosInf 1 ∅).
  - sample_table_is_ok.
  - split; [reflexivity | repeat constructor].
  - lia.
Defined.

Lemma negamax_repeat_witness :
  ∃ sc mv (c' : Cache),
    negamax sample_table row0_chain3 2 NegInf PosInf 1 ∅
    = Some (sc, mv, row0_chain3, c')
    ∧ ∀ alpha' beta',
        negamax sample_table row0_chain3 2 alpha' beta' 1 c'
        = Some (sc, mv, row0_chain3, c').
Proof.
  apply (negamax_repeat sample_table row0_chain3 2 NegInf PosInf 1 ∅).
  - sample_table_is_ok.
  - split; [reflexivity | repeat constructor].
  - lia.
Defined.

(** ** Hex_utils.py: winning depends on the player's own stones *)

Lemma chain_more_stones (b1 b2 : Board) (value s g : Z) :
  (∀ a, owned b1 value a -> owned b2 value a) ->
  chain b1 value s g -> chain b2 value s g.
Proof.
  intros Hown. induction 1 as [a Ha | a b c Hab IH Hadj Hc].
  - apply chain_one. now apply Hown.
  - eapply chain_step; eauto.
Qed.

Lemma check_winner_more_stones (b1 b2 : Board) (player : Z) :
  wf_board b1 -> wf_board b2 -> player = 1 ∨ player = -1 ->
  (∀ a, in_board a ->
        cell b1 (a / SIZE) (a mod SIZE) = player ->
        cell b2 (a / SIZE) (a mod SIZE) = player) ->
  check_winner b1 player = true -> check_winner b2 player = true.
Proof.
  intros Hwf1 Hwf2 Hp Hsub.
  destruct (check_winner_connected b1 player Hwf1 Hp) as (r1 & Hr1 & Hiff1).
  destruct (check_winner_connected b2 player Hwf2 Hp) as (r2 & Hr2 & Hiff2).
  unfold check_winner.
  replace (if player =? 1 then 1 else -1) with player
    by (destruct Hp as [-> | ->]; reflexivity).
  rewrite Hr1, Hr2. cbn [default].
  intros H1. apply Hiff2. apply Hiff1 in H1 as (s & g & Hs & Hg & Hch).
  exists s, g. repeat split; try assumption.
  eapply chain_more_stones; [|exact Hch].
  intros a [Ha Hv]. split; [exact Ha | now apply Hsub].
Qed.

(** X10: [check_winner(board, player)] looks at the stones of [player]
    only, and more of them never undo a win: if every cell holding [player]
    on one board holds it on another, a win on the first is a win on the
    second. *)
Theorem check_winner_monotone (b1 b2 : Board) (player : Z) :
  wf_board b1 -> wf_board b2 -> player = 1 ∨ player = -1 ->
  (∀ a, in_board a ->
        cell b1 (a / SIZE) (a mod SIZE) = player ->
        cell b2 (a / SIZE) (a mod SIZE) = player) ->
  check_winner b1 player = true -> check_winner b2 player = true.
Proof. apply check_winner_more_stones. Qed.

Lemma check_winner_monotone_witness :
  check_winner [[-1; -1; -1; -1]; [1; 0; 0; 0]; [0; 0; -1; 0]; [0; 0; 0; 0]] (-1)
  = true.
Proof.
  apply (check_winner_monotone row0_chain4
           [[-1; -1; -1; -1]; [1; 0; 0; 0]; [0; 0; -1; 0]; [0; 0; 0; 0]] (-1)).
  - split; [reflexivity | repeat constructor].
  - split; [reflexivity | repeat constructor].
  - right. reflexivity.
  - intros a Ha. board_cases Ha; intros H; first [exact H | discriminate H].
  - reflexivity.
Defined.

(** ** Hex_ai.py: the hash of the board after a move *)

Section HashUpdate.

Variable table : list (Z * Z).

Lemma hash_as_fold (board : Board) :
  compute_zobrist_hash table board
  = fold_left (zobrist_step table board) (Py.range (SIZE * SIZE)) 0.
Proof. reflexivity. Qed.

Lemma zobrist_fold_xor (board : Board) (l : list Z) (h e : Z) :
  fold_left (zobrist_step table board) l (Z.lxor h e)
  = Z.lxor (fold_left (zobrist_step table board) l h) e.
Proof.
  revert h. induction l as [|x l IH]; intros h; cbn [fold_left]; [reflexivity|].
  rewrite <- IH. f_equal. unfold zobrist_step.
  repeat case_match; try reflexivity;
    rewrite !Z.lxor_assoc; f_equal; apply Z.lxor_comm.
Qed.

Lemma zobrist_fold_put (board : Board) (a p : Z) (l : list Z) (h : Z) :
  wf_board board -> in_board a -> p = 1 ∨ p = -1 ->
  cell board (a / SIZE) (a mod SIZE) = 0 ->
  NoDup l -> Forall in_board l ->
  fold_left (zobrist_step table (put board (a / SIZE) (a mod SIZE) p)) l h
  = if bool_decide (a ∈ l)
    then Z.lxor (fold_left (zobrist_step table board) l h) (zobrist_entry table a p)
    else fold_left (zobrist_step table board) l h.
Proof.
  intros Hwf Ha Hp Hz Hnd Hall. revert h.
  induction Hnd as [|x l Hx Hnd IH]; intros h; cbn [fold_left].
  - reflexivity.
  - apply Forall_cons in Hall as [Hxb Hall].
    rewrite (IH Hall). destruct (decide (x = a)) as [-> | Hne].
    + rewrite (bool_decide_eq_false_2 _ Hx).
      rewrite bool_decide_eq_true_2 by left.
      rewrite <- zobrist_fold_xor. f_equal.
      unfold zobrist_step, zobrist_entry.
      rewrite cell_put_same, Hz by assumption.
      destruct Hp as [-> | ->]; reflexivity.
    + assert (Hsame : zobrist_step table (put board (a / SIZE) (a mod SIZE) p) h x
                      = zobrist_step table board h x).
      { unfold zobrist_step. rewrite cell_put_other by auto. reflexivity. }
      rewrite Hsame.
      destruct (decide (a ∈ l)) as [Hin | Hnin].
      * rewrite (bool_decide_eq_true_2 _ Hin).
        rewrite bool_decide_eq_true_2 by now right. reflexivity.
      * rewrite (bool_decide_eq_false_2 _ Hnin).
        rewrite bool_decide_eq_false_2; [reflexivity|].
        intros [? | ?]%elem_of_cons; congruence.
Qed.

(** X11: playing a stone changes the hash by the table entry of that cell
    and player: [hash(board with p on a) = hash(board) xor table[a][p]]. *)
Theorem zobrist_hash_after_move (board : Board) (a p : Z) :
  wf_board board -> in_board a -> p = 1 ∨ p = -1 ->
  cell board (a / SIZE) (a mod SIZE) = 0 ->
  compute_zobrist_hash table (put board (a / SIZE) (a mod SIZE) p)
  = Z.lxor (compute_zobrist_hash table board) (zobrist_entry table a p).
Proof.
  intros Hwf Ha Hp Hz. rewrite !hash_as_fold.
  rewrite zobrist_fold_put; try assumption.
  - rewrite bool_decide_eq_true_2; [reflexivity|].
    unfold Py.range. apply elem_of_seqZ. exact Ha.
  - apply NoDup_seqZ.
  - apply Forall_forall. intros x Hx%elem_of_seqZ. exact Hx.
Qed.

End HashUpdate.

Lemma zobrist_hash_after_move_witness :
  compute_zobrist_hash sample_table (put row0_chain3 (3 / SIZE) (3 mod SIZE) (-1))
  = Z.lxor (compute_zobrist_hash sample_table row0_chain3)
           (zobrist_entry sample_table 3 (-1)).
Proof.
  apply (zobrist_hash_after_move sample_table row0_chain3 3 (-1)).
  - split; [reflexivity | repeat constructor].
  - unfold in_board, SIZE. lia.
  - right. reflexivity.
  - reflexivity.
Defined.

(** ** Edge cases *)

(** X12: with depth 0 [find_best_move] selects no move, on any
    well-formed board and with any cache. *)
Theorem find_best_move_depth_0 (table : list (Z * Z)) (board : Board)
    (player : Z) (cache : option Cache) :
  wf_board board ->
  find_best_move table board player 0 cache = Some (None, board).
Proof.
  intros _. unfold find_best_move. rewrite negamax_eq.
  change (Z.to_nat 0) with 0%nat. rewrite negamax_leaf. reflexivity.
Qed.

Lemma find_best_move_depth_0_witness :
  find_best_move sample_table row0_chain3 1 0 None = Some (None, row0_chain3).
Proof.
  apply (find_best_move_depth_0 sample_table row0_chain3 1 None).
  split; [reflexivity | repeat constructor].
Defined.

(** X13: an action number outside [-16, 16) makes [apply_action] raise
    IndexError and leaves the board alone; a negative action number from -16
    to -1 is taken from the end of the board, as Python indexes lists:
    action [a] plays the cell [a + 16]. *)
Theorem apply_action_out_of_range (board : Board) (a p : Z) :
  wf_board board ->
  (a < -16 ∨ 16 <= a -> apply_action board a p = Raises IndexError board)
  ∧ (-16 <= a < 0 -> apply_action board a p = apply_action board (a + 16) p).
Proof.
  intros Hwf. split.
  - intros Ha. unfold apply_action, is_valid_action, board_get, Py.getitem.
    destruct Hwf as [Hlen _]. rewrite Hlen, index_of_range.
    rewrite bool_decide_eq_false_2; [reflexivity|].
    unfold SIZE. change (Z.of_nat (Z.to_nat 4)) with 4.
    Z.div_mod_to_equations. lia.
  - intros Ha. explicit_board Hwf.
    assert (Hcases : a = -16 ∨ a = -15 ∨ a = -14 ∨ a = -13 ∨ a = -12 ∨ a = -11
                     ∨ a = -10 ∨ a = -9 ∨ a = -8 ∨ a = -7 ∨ a = -6 ∨ a = -5
                     ∨ a = -4 ∨ a = -3 ∨ a = -2 ∨ a = -1) by lia.
    repeat (destruct Hcases as [-> | Hcases]; [reflexivity|]).
    subst. reflexivity.
Qed.

Lemma apply_action_out_of_range_witness :
  (16 < -16 ∨ 16 <= 16 -> apply_action row0_chain3 16 1 = Raises IndexError row0_chain3)
  ∧ (-16 <= 16 < 0 -> apply_action row0_chain3 16 1 = apply_action row0_chain3 (16 + 16) 1).
Proof.
  apply (apply_action_out_of_range row0_chain3 16 1).
  split; [reflexivity | repeat constructor].
Defined.

Example apply_action_negative :
  apply_action row0_chain3 (-1) 1
  = Returns tt [[-1; -1; -1; 0]; [0; 0; 0; 0]; [0; 0; 0; 0]; [0; 0; 0; 1]].
Proof. reflexivity. Qed.

(** ** Hex_ai.py: the game loop with the search on both sides *)

Lemma empty_cells_after_put (board : Board) (a p : Z) (l : list Z) :
  wf_board board -> in_board a -> p ≠ 0 ->
  cell board (a / SIZE) (a mod SIZE) = 0 ->
  NoDup l -> Forall in_board l ->
  (length (filter (fun x => cell (put board (a / SIZE) (a mod SIZE) p)
                                 (x / SIZE) (x mod SIZE) = 0)%Z l)
   + (if bool_decide (a ∈ l) then 1 else 0)
   = length (filter (fun x => cell board (x / SIZE) (x mod SIZE) = 0)%Z l))%nat.
Proof.
  intros Hwf Ha Hp Hz Hnd Hall.
  induction Hnd as [|x l Hx Hnd IH]; [reflexivity|].
  apply Forall_cons in Hall as [Hxb Hall]. specialize (IH Hall).
  rewrite !filter_cons. destruct (decide (x = a)) as [-> | Hne].
  - rewrite cell_put_same by assumption.
    rewrite (bool_decide_eq_false_2 _ Hx) in IH.
    rewrite bool_decide_eq_true_2 by left.
    rewrite decide_False by exact Hp. rewrite decide_True by exact Hz.
    simpl. lia.
  - rewrite cell_put_other by auto.
    assert (Hmem : bool_decide (a ∈ x :: l) = bool_decide (a ∈ l)).
    { apply bool_decide_ext. rewrite elem_of_cons. split; [intros [? | ?] | auto];
        [congruence | assumption]. }
    rewrite Hmem.
    destruct (decide (cell board (x / SIZE) (x mod SIZE) = 0)); simpl; lia.
Qed.

Lemma valid_actions_after_put (board : Board) (a p : Z) :
  wf_board board -> is_empty_cell board a -> p ≠ 0 ->
  Z.of_nat (length (valid_actions_of (put board (a / SIZE) (a mod SIZE) p)))
  = Z.of_nat (length (valid_actions_of board)) - 1.
Proof.
  intros Hwf [Ha Hz] Hp. unfold valid_actions_of.
  pose proof (empty_cells_after_put board a p (Py.range (SIZE * SIZE))
                Hwf Ha Hp Hz (NoDup_seqZ _ _)) as Hlen.
  rewrite bool_decide_eq_true_2 in Hlen
    by (unfold Py.range; apply elem_of_seqZ; exact Ha).
  rewrite <- Hlen; [lia|].
  apply Forall_forall. intros x Hx%elem_of_seqZ. exact Hx.
Qed.

(** With a positive depth, on a board that is not won and not full, the
    search selects an empty cell. *)
Lemma find_best_move_some (table : list (Z * Z)) (board : Board)
    (player max_depth : Z) :
  wf_board board -> 0 < max_depth ->
  check_winner board (- player) = false -> valid_actions_of board ≠ [] ->
  ∃ a, find_best_move table board player max_depth None = Some (Some a, board)
       ∧ is_empty_cell board a.
Proof.
  intros Hwf Hd Hnw Hmoves.
  destruct (negamax_total table board max_depth NegInf PosInf player ∅ Hwf
              ltac:(lia)) as (sc & mv & c' & Hcall).
  assert (Hfind : find_best_move table board player max_depth None = Some (mv, board))
    by (unfold find_best_move; rewrite Hcall; reflexivity).
  rewrite negamax_eq in Hcall.
  destruct (negamax_fuel_root table (Z.to_nat max_depth) board max_depth
              NegInf PosInf player sc mv board c' Hwf ltac:(lia) Hcall)
    as [Hlegal Hnone].
  destruct mv as [a|].
  - exists a. split; [exact Hfind | now apply Hlegal].
  - exfalso. apply Hmoves, no_valid_actions. now apply Hnone.
Qed.

Lemma game_loop_unfold (table : list (Z * Z)) (max_depth : Z) (fuel : nat)
    (board : Board) (current_player move_count : Z) :
  game_loop table max_depth (S fuel) board current_player move_count
  = match find_best_move table board current_player max_depth None with
    | None => None
    | Some (None, board) => Some (TypeError board)
    | Some (Some best_move, board) =>
        match apply_action board best_move current_player with
        | Raises e board => Some (ActionError e board)
        | Returns _ board =>
            if check_winner board current_player
            then Some (AiWins current_player board)
            else
              if move_count + 1 >=? SIZE * SIZE
              then Some (AllCellsFilled board)
              else game_loop table max_depth fuel board (- current_player)
                             (move_count + 1)
        end
    end.
Proof. reflexivity. Qed.

Lemma game_loop_ends (table : list (Z * Z)) (max_depth : Z) :
  0 < max_depth ->
  ∀ fuel board current_player move_count,
    game_inv board current_player move_count ->
    (Z.to_nat (SIZE * SIZE - move_count) <= fuel)%nat ->
    ∃ e, game_loop table max_depth fuel board current_player move_count = Some e
         ∧ regular_end e.
Proof.
  intros Hd. induction fuel as [|fuel IH];
    intros board cur mc (Hwf & Hcur & Hw1 & Hw2 & Hmc & Hlen) Hfuel.
  { unfold SIZE in *. lia. }
  assert (Hnw : ∀ p, p = 1 ∨ p = -1 -> check_winner board p = false)
    by (intros p [-> | ->]; assumption).
  rewrite game_loop_unfold.
  destruct (find_best_move_some table board cur max_depth Hwf Hd)
    as (a & -> & [Ha Hz]).
  { apply Hnw. lia. }
  { intros Hnil. rewrite Hnil in Hlen. simpl in Hlen. unfold SIZE in *. lia. }
  rewrite apply_action_wf by assumption. rewrite Hz, Z.eqb_refl.
  set (board' := put board (a / SIZE) (a mod SIZE) cur).
  assert (Hwf' : wf_board board') by now apply put_wf.
  assert (Hopp : check_winner board' (- cur) = false).
  { destruct (check_winner board' (- cur)) eqn:Hc; [|reflexivity].
    rewrite <- (Hnw (- cur) ltac:(lia)).
    symmetry. apply (check_winner_more_stones board' board (- cur));
      [assumption | assumption | lia | | exact Hc].
    intros x Hx Hv. destruct (decide (a = x)) as [<- | Hne].
    - unfold board' in Hv. rewrite cell_put_same in Hv by assumption. lia.
    - unfold board' in Hv. now rewrite cell_put_other in Hv. }
  destruct (check_winner board' cur) eqn:Hwin.
  { eexists. split; [reflexivity|].
    split; [exact Hcur|]. split; [exact Hwf'|]. split; [exact Hwin | exact Hopp]. }
  assert (Hlen' : Z.of_nat (length (valid_actions_of board'))
                  = SIZE * SIZE - (mc + 1)).
  { unfold board'. rewrite valid_actions_after_put; [lia | assumption | | lia].
    split; assumption. }
  assert (Hnw' : ∀ p, p = 1 ∨ p = -1 -> check_winner board' p = false).
  { intros p Hp. destruct (decide (p = cur)) as [-> | Hne]; [exact Hwin|].
    replace p with (- cur) by lia. exact Hopp. }
  destruct (Z.geb_spec (mc + 1) (SIZE * SIZE)) as [Hfull | Hmore].
  - eexists. split; [reflexivity|].
    split; [exact Hwf'|]. split; [|split; apply Hnw'; auto].
    apply nil_length_inv. unfold SIZE in *. lia.
  - apply IH; [|unfold SIZE in *; lia].
    split; [exact Hwf'|]. split; [lia|].
    split; [apply Hnw'; auto|]. split; [apply Hnw'; auto|].
    split; [unfold SIZE in *; lia | exact Hlen'].
Qed.

Lemma play_hex_eq (table : list (Z * Z)) (max_depth : Z) :
  play_hex_with_alphabeta table max_depth
  = game_loop table max_depth 16 (board16 0 0 0 0 0 0 0 0 0 0 0 0 0 0 0 0) 1 0.
Proof. reflexivity. Qed.

(** X14: with a positive search depth the game the two searches play
    against each other ends within SIZE * SIZE moves, and regularly: no move
    is missing or illegal ([apply_action] never raises), and at the end one
    player has joined the edges while the other has not, or the board is
    full. *)
Theorem play_hex_ends (table : list (Z * Z)) (max_depth : Z) :
  0 < max_depth ->
  ∃ e, play_hex_with_alphabeta table max_depth = Some e ∧ regular_end e.
Proof.
  intros Hd. rewrite play_hex_eq.
  apply game_loop_ends; [exact Hd | | unfold SIZE; simpl; lia].
  split; [apply wf_board16|]. split; [now left|].
  split; [reflexivity|]. split; [reflexivity|].
  split; [unfold SIZE; lia | reflexivity].
Qed.

Lemma play_hex_ends_witness :
  ∃ e, play_hex_with_alphabeta sample_table 1 = Some e ∧ regular_end e.
Proof. apply (play_hex_ends sample_table 1). lia. Defined.

(** ** Scores, legal moves, other player values *)

(** X15: started on a cache whose scores are numbers, with a Zobrist table
    filled by [init_zobrist], a search returns a number, never [-inf] or
    [inf], and leaves a cache whose scores are numbers. *)
Theorem negamax_returns_number (table : list (Z * Z)) (board : Board)
    (depth : Z) (alpha beta : score) (player : Z) (cache : Cache) :
  zobrist_table_ok table -> wf_board board -> 0 <= depth -> cache_fin cache ->
  ∃ z mv (c' : Cache),
    negamax table board depth alpha beta player cache = Some (Fin z, mv, board, c')
    ∧ cache_fin c'.
Proof.
  intros _ Hwf Hd Hfin.
  destruct (negamax_total table board depth alpha beta player cache Hwf Hd)
    as (sc & mv & c' & Hcall).
  pose proof Hcall as Hcall'. rewrite negamax_eq in Hcall'.
  apply negamax_fuel_fin in Hcall' as (_ & Hfin' & z & ->); [|assumption..].
  exists z, mv, c'. split; assumption.
Qed.

Lemma negamax_returns_number_witness :
  ∃ z mv (c' : Cache),
    negamax sample_table row0_chain3 2 NegInf PosInf 1 ∅
    = Some (Fin z, mv, row0_chain3, c')
    ∧ cache_fin c'.
Proof.
  apply (negamax_returns_number sample_table row0_chain3 2 NegInf PosInf 1 ∅).
  - sample_table_is_ok.
  - split; [reflexivity | repeat constructor].
  - lia.
  - intros k sc mv Hk. rewrite lookup_empty in Hk. discriminate.
Defined.

Lemma strongly_sorted_filter (P : Z -> Prop) `{∀ x, Decision (P x)} (l : list Z) :
  StronglySorted Z.lt l -> StronglySorted Z.lt (filter P l).
Proof.
  induction 1 as [|x l Hs IH Hx]; [constructor|].
  rewrite filter_cons. case_decide; [|exact IH].
  constructor; [exact IH|].
  apply Forall_forall. intros y [_ Hy]%list_elem_of_filter.
  rewrite Forall_forall in Hx. now apply Hx.
Qed.

(** X16: the moves [negamax] enumerates are the empty cells of the board,
    each once, in increasing order, and [apply_action] accepts every one of
    them. *)
Theorem valid_actions_accepted (board : Board) (player : Z) :
  wf_board board ->
  NoDup (valid_actions_of board)
  ∧ StronglySorted Z.lt (valid_actions_of board)
  ∧ (∀ a, a ∈ valid_actions_of board ↔ is_empty_cell board a)
  ∧ ∀ a, a ∈ valid_actions_of board ->
         is_valid_action board a = Returns true board
         ∧ apply_action board a player
           = Returns tt (put board (a / SIZE) (a mod SIZE) player).
Proof.
  intros Hwf. split; [|split; [|split]].
  - apply NoDup_filter, NoDup_seqZ.
  - unfold valid_actions_of. apply strongly_sorted_filter.
    change (Py.range (SIZE * SIZE))
      with [0; 1; 2; 3; 4; 5; 6; 7; 8; 9; 10; 11; 12; 13; 14; 15].
    repeat (constructor; [|repeat (constructor; [lia|]); constructor]).
    constructor.
  - intros a. apply elem_of_valid_actions.
  - intros a [Ha Hz]%elem_of_valid_actions. split.
    + unfold is_valid_action. rewrite board_get_wf by assumption.
      rewrite Hz. reflexivity.
    + rewrite apply_action_wf by assumption. rewrite Hz. reflexivity.
Qed.

Lemma valid_actions_accepted_witness :
  NoDup (valid_actions_of row0_chain3)
  ∧ StronglySorted Z.lt (valid_actions_of row0_chain3)
  ∧ (∀ a, a ∈ valid_actions_of row0_chain3 ↔ is_empty_cell row0_chain3 a)
  ∧ ∀ a, a ∈ valid_actions_of row0_chain3 ->
         is_valid_action row0_chain3 a = Returns true row0_chain3
         ∧ apply_action row0_chain3 a 1
           = Returns tt (put row0_chain3 (a / SIZE) (a mod SIZE) 1).
Proof.
  apply (valid_actions_accepted row0_chain3 1).
  split; [reflexivity | repeat constructor].
Defined.

Lemma shortest_path_length_other (board : Board) (player : Z) :
  player ≠ 1 ->
  shortest_path_length board player = shortest_path_length board (-1).
Proof.
  intros Hp. unfold shortest_path_length, spl_starts, spl_is_goal.
  apply Z.eqb_neq in Hp. rewrite Hp. reflexivity.
Qed.

(** X17: a player value other than 1 is read as player -1 by
    [check_winner] and by [shortest_path_length]; so for a player value
    that is neither 1 nor -1 the heuristic compares player -1 with itself and
    is 0 on every well-formed board. *)
Theorem evaluate_board_other_player (board : Board) (player : Z) :
  wf_board board -> player ≠ 1 -> player ≠ -1 ->
  check_winner board player = check_winner board (-1)
  ∧ shortest_path_length board player = shortest_path_length board (-1)
  ∧ evaluate_board board player = 0.
Proof.
  intros _ Hp1 Hp2. split; [now apply check_winner_other|].
  split; [now apply shortest_path_length_other|].
  unfold evaluate_board.
  rewrite (shortest_path_length_other board player) by assumption.
  rewrite (shortest_path_length_other board (- player)) by lia.
  destruct (shortest_path_length board (-1)); lia.
Qed.

Lemma evaluate_board_other_player_witness :
  check_winner row0_chain4 2 = check_winner row0_chain4 (-1)
  ∧ shortest_path_length row0_chain4 2 = shortest_path_length row0_chain4 (-1)
  ∧ evaluate_board row0_chain4 2 = 0.
Proof.
  apply (evaluate_board_other_player row0_chain4 2); [|lia|lia].
  split; [reflexivity | repeat constructor].
Defined.

